(** * Rule generation for proto_library rules (package proto, generate.go)
      and the kind table of the Go extension (language/go/kinds.go).

    Go strings are byte sequences: they are modelled by [string], whose
    characters ([ascii]) are the bytes.  Indices and the [-1] "not found"
    results of the [strings] package are integers ([Z]), as in the code.
    Go maps are [gmap]s, sets of names are [gset]s; the order in which a
    [range] loop visits a map is not fixed by the language, so it is a
    parameter of the functions that iterate. *)

From Stdlib Require Import ZArith Ascii String List Bool Lia.
From stdpp Require Import base option list gmap strings sorting.

Local Open Scope string_scope.
Local Open Scope list_scope.
Local Open Scope Z_scope.

(** ** Byte strings: slicing and the functions of package [strings] *)

(** [s[i:]] (the code only slices at indices within the string). *)
Fixpoint sliceFrom (i : nat) (s : string) : string :=
  match i, s with
  | O, _ => s
  | S _, EmptyString => EmptyString
  | S i', String _ s' => sliceFrom i' s'
  end.

(** [s[:i]]. *)
Fixpoint sliceTo (i : nat) (s : string) : string :=
  match i, s with
  | O, _ => EmptyString
  | S _, EmptyString => EmptyString
  | S i', String a s' => String a (sliceTo i' s')
  end.

(** [strings.HasPrefix(s, prefix)]. *)
Fixpoint HasPrefix (s pre : string) {struct pre} : bool :=
  match pre, s with
  | EmptyString, _ => true
  | String _ _, EmptyString => false
  | String b pre', String a s' => Ascii.eqb a b && HasPrefix s' pre'
  end.

(** [strings.HasSuffix(s, suffix)]:
    [len(s) >= len(suffix) && s[len(s)-len(suffix):] == suffix]. *)
Definition HasSuffix (s suf : string) : bool :=
  (String.length suf <=? String.length s)%nat &&
  String.eqb (sliceFrom (String.length s - String.length suf) s) suf.

(** [strings.TrimSuffix(s, suffix)]. *)
Definition TrimSuffix (s suf : string) : string :=
  if HasSuffix s suf then sliceTo (String.length s - String.length suf) s else s.

(** [strings.IndexByte(s, c)]: index of the first [c], or [-1]. *)
Fixpoint IndexByte (s : string) (c : ascii) : Z :=
  match s with
  | EmptyString => -1
  | String a s' =>
      if Ascii.eqb a c then 0
      else let i := IndexByte s' c in if 0 <=? i then i + 1 else -1
  end.

(** [strings.LastIndexByte(s, c)]: index of the last [c], or [-1]. *)
Fixpoint LastIndexByte (s : string) (c : ascii) : Z :=
  match s with
  | EmptyString => -1
  | String a s' =>
      let i := LastIndexByte s' c in
      if 0 <=? i then i + 1 else if Ascii.eqb a c then 0 else -1
  end.

(** [strings.LastIndex(s, substr)]: index of the last occurrence of
    [substr] in [s], or [-1]. *)
Fixpoint LastIndex (s sub : string) : Z :=
  match s with
  | EmptyString => if String.eqb sub EmptyString then 0 else -1
  | String _ s' =>
      let i := LastIndex s' sub in
      if 0 <=? i then i + 1 else if HasPrefix s sub then 0 else -1
  end.

(** [strings.Replace(s, old, new, -1)] for a non-empty [old]: every
    non-overlapping occurrence of [old], from the left, becomes [new].
    The fuel bounds the scan by the length of [s]. *)
Fixpoint Replace_loop (fuel : nat) (s old new : string) : string :=
  match fuel with
  | O => s
  | S fuel' =>
      match s with
      | EmptyString => EmptyString
      | String a s' =>
          if HasPrefix s old
          then new +:+ Replace_loop fuel' (sliceFrom (String.length old) s) old new
          else String a (Replace_loop fuel' s' old new)
      end
  end.

Definition Replace (s old new : string) : string :=
  Replace_loop (String.length s) s old new.

(** ** Package [unicode/utf8]: decoding the last rune of a string *)

Module utf8.

Definition RuneError : Z := 65533.   (* U+FFFD *)
Definition RuneSelf : Z := 128.
Definition UTFMax : nat := 4.

Definition byte (a : ascii) : Z := Z.of_nat (nat_of_ascii a).

(** The entries of the table [first], by the range of the first byte. *)
Inductive firstInfo :=
| as_   (* ASCII, size 1 *)
| xx    (* invalid, size 1 *)
| seq (size : nat) (lo hi : Z).  (* size and accepted range of the second byte *)

Definition first (b : Z) : firstInfo :=
  if b <? 128 then as_
  else if b <? 194 then xx                      (* 0x80-0xC1 *)
  else if b <? 224 then seq 2 128 191           (* 0xC2-0xDF: s1 *)
  else if b =? 224 then seq 3 160 191           (* 0xE0: s2 *)
  else if b <? 237 then seq 3 128 191           (* 0xE1-0xEC: s3 *)
  else if b =? 237 then seq 3 128 159           (* 0xED: s4 *)
  else if b <? 240 then seq 3 128 191           (* 0xEE-0xEF: s3 *)
  else if b =? 240 then seq 4 144 191           (* 0xF0: s5 *)
  else if b <? 244 then seq 4 128 191           (* 0xF1-0xF3: s6 *)
  else if b =? 244 then seq 4 128 143           (* 0xF4: s7 *)
  else xx.                                      (* 0xF5-0xFF *)

Definition cont (b : Z) : bool := (128 <=? b) && (b <=? 191).

(** [utf8.RuneStart(b)]: [b&0xC0 != 0x80]. *)
Definition RuneStart (b : Z) : bool := negb (Z.land b 192 =? 128).

(** [utf8.DecodeRuneInString(s)]: the first rune of [s] and its width. *)
Definition DecodeRuneInString (s : string) : Z * nat :=
  match s with
  | EmptyString => (RuneError, 0%nat)
  | String a0 t0 =>
      let s0 := byte a0 in
      match first s0 with
      | as_ => (s0, 1%nat)
      | xx => (RuneError, 1%nat)
      | seq sz lo hi =>
          if (String.length s <? sz)%nat then (RuneError, 1%nat) else
          match t0 with
          | EmptyString => (RuneError, 1%nat)
          | String a1 t1 =>
              let s1 := byte a1 in
              if (s1 <? lo) || (hi <? s1) then (RuneError, 1%nat) else
              if (sz <=? 2)%nat
              then (Z.lor (Z.shiftl (Z.land s0 31) 6) (Z.land s1 63), 2%nat) else
              match t1 with
              | EmptyString => (RuneError, 1%nat)
              | String a2 t2 =>
                  let s2 := byte a2 in
                  if negb (cont s2) then (RuneError, 1%nat) else
                  if (sz <=? 3)%nat
                  then (Z.lor (Z.lor (Z.shiftl (Z.land s0 15) 12)
                                     (Z.shiftl (Z.land s1 63) 6))
                              (Z.land s2 63), 3%nat) else
                  match t2 with
                  | EmptyString => (RuneError, 1%nat)
                  | String a3 _ =>
                      let s3 := byte a3 in
                      if negb (cont s3) then (RuneError, 1%nat) else
                      (Z.lor (Z.lor (Z.lor (Z.shiftl (Z.land s0 7) 18)
                                           (Z.shiftl (Z.land s1 63) 12))
                                    (Z.shiftl (Z.land s2 63) 6))
                             (Z.land s3 63), 4%nat)
                  end
              end
          end
      end
  end.

(** The backwards search for the start of the last rune: from [start],
    while [start >= lim], stop at the first byte that starts a rune.  The
    result is [-1] when the scan runs below index 0. *)
Fixpoint findStart (s : string) (lim : nat) (n : nat) (start : Z) : Z :=
  match n with
  | O => start
  | S n' =>
      if start <? Z.of_nat lim then start
      else match String.get (Z.to_nat start) s with
           | Some b => if RuneStart (byte b) then start
                       else findStart s lim n' (start - 1)
           | None => start
           end
  end.

(** [utf8.DecodeLastRuneInString(s)]: the last rune of [s] and its width. *)
Definition DecodeLastRuneInString (s : string) : Z * nat :=
  let end_ := String.length s in
  match String.get (end_ - 1) s with
  | None => (RuneError, 0%nat)
  | Some b =>
      let r := byte b in
      if r <? RuneSelf then (r, 1%nat) else
      let lim := (end_ - UTFMax)%nat in
      let start := findStart s lim UTFMax (Z.of_nat (end_ - 1) - 1) in
      let start := if start <? 0 then 0%nat else Z.to_nat start in
      let '(r, size) := DecodeRuneInString (sliceFrom start s) in
      if (start + size =? end_)%nat then (r, size) else (RuneError, 1%nat)
  end.

End utf8.

(** [strings.LastIndexFunc(s, f)]: the byte index of the last rune of [s]
    that satisfies [f], or [-1].  The loop
    [for i := len(s); i > 0; { r, size := DecodeLastRuneInString(s[0:i]);
    i -= size; if f(r) { return i } }] moves [i] down by at least one byte
    in every round, so [len(s)] rounds are enough. *)
Fixpoint lastIndexFunc (fuel : nat) (s : string) (f : Z -> bool) (i : nat) : Z :=
  match fuel with
  | O => -1
  | S fuel' =>
      if (i =? 0)%nat then -1 else
      let '(r, size) := utf8.DecodeLastRuneInString (sliceTo i s) in
      let i' := (i - size)%nat in
      if f r then Z.of_nat i' else lastIndexFunc fuel' s f i'
  end.

Definition LastIndexFunc (s : string) (f : Z -> bool) : Z :=
  lastIndexFunc (String.length s) s f (String.length s).

(** ** RuleName *)

Definition rune (c : ascii) : Z := utf8.byte c.

Definition notIdent (c : Z) : bool :=
  negb ((rune "A"%char <=? c) && (c <=? rune "Z"%char) ||
        (rune "a"%char <=? c) && (c <=? rune "z"%char) ||
        (rune "0"%char <=? c) && (c <=? rune "9"%char) ||
        (c =? rune "_"%char)).

(** One round of the loop of [RuleName]: the name after trimming. *)
Definition trimToIdent (name : string) : string :=
  let i := LastIndexFunc name notIdent in
  if 0 <=? i then sliceFrom (Z.to_nat (i + 1)) name else name.

(** The loop of [RuleName]: the base chosen from the remaining names. *)
Fixpoint RuleName_base (base : string) (names : list string) : string :=
  match names with
  | [] => base
  | name :: rest =>
      let name := trimToIdent name in
      if negb (String.eqb name "") then name else RuleName_base base rest
  end.

Definition RuleName (names : list string) : string :=
  RuleName_base "root" names +:+ "_proto".

(** ** The data of packages [rule], [config] and [language] that the
       generator uses *)

(** Modelled from the spec: the type [Package] and its operations
    [newPackage], [addFile] and [addGenFile] are declared in package.go,
    which is not among the sources.  A package has a name, the set of its
    member file names, the union of the imports of its members, and its
    options (the last write of a key wins). *)
Record Package := {
  Name : string;
  Files : gset string;
  Imports : gset string;
  Options : gmap string string;
}.

(** Modelled from the spec: the per-file record produced by the analyzer
    ([protoFileInfo], fileinfo.go, not among the sources): file name,
    declared package, options in file order, imports. *)
Record Option_ := { Key : string; Value : string }.

Record FileInfo := {
  FileName : string;
  PackageName : string;
  FileOptions : list Option_;
  FileImports : list string;
}.

Definition newPackage (name : string) : Package :=
  {| Name := name; Files := ∅; Imports := ∅; Options := ∅ |}.

Definition addFile (info : FileInfo) (p : Package) : Package :=
  {| Name := Name p;
     Files := {[FileName info]} ∪ Files p;
     Imports := list_to_set (FileImports info) ∪ Imports p;
     Options := foldl (fun m opt => <[Key opt := Value opt]> m)
                      (Options p) (FileOptions info) |}.

Definition addGenFile (dir name : string) (p : Package) : Package :=
  {| Name := Name p;
     Files := {[name]} ∪ Files p;
     Imports := Imports p;
     Options := Options p |}.

Module rule.

(** Modelled from the spec: package rule is not among the sources.  The
    value of an attribute of an existing rule is either a plain list of
    strings or some other expression, which the generator cannot read. *)
Inductive Expr :=
| StringList (l : list string)
| OtherExpr (text : string).

(** The values given to [SetPrivateAttr] (an [interface{}] in the code). *)
Inductive PrivateValue :=
| PackageValue (p : Package)
| StringsValue (l : list string)
| StringValue (s : string).

Record Rule := {
  kind : string;
  name : string;
  attrs : gmap string Expr;
  private : gmap string PrivateValue;
}.

Definition Kind (r : Rule) : string := kind r.
Definition Name (r : Rule) : string := name r.

Definition NewRule (kind name : string) : Rule :=
  {| kind := kind; name := name; attrs := ∅; private := ∅ |}.

(** [r.Attr(key)]: the expression, [None] for Go's [nil]. *)
Definition Attr (r : Rule) (key : string) : option Expr := attrs r !! key.

(** [r.AttrStrings(key)]: the strings of a list attribute; nothing when
    the attribute is absent or is not a list of strings. *)
Definition AttrStrings (r : Rule) (key : string) : list string :=
  match attrs r !! key with
  | Some (StringList l) => l
  | _ => []
  end.

Definition SetAttr (r : Rule) (key : string) (value : Expr) : Rule :=
  {| kind := kind r; name := name r;
     attrs := <[key := value]> (attrs r); private := private r |}.

Definition SetPrivateAttr (r : Rule) (key : string) (value : PrivateValue) : Rule :=
  {| kind := kind r; name := name r;
     attrs := attrs r; private := <[key := value]> (private r) |}.

Definition PrivateAttr (r : Rule) (key : string) : option PrivateValue :=
  private r !! key.

(** [rule.KindInfo], with the fields that kinds.go fills in. *)
Record KindInfo := {
  MatchAny : bool;
  MatchAttrs : list string;
  NonEmptyAttrs : gmap string bool;
  SubstituteAttrs : gmap string bool;
  MergeableAttrs : gmap string bool;
  ResolveAttrs : gmap string bool;
}.

(** The zero value of [KindInfo]. *)
Definition zeroKindInfo : KindInfo :=
  {| MatchAny := false; MatchAttrs := []; NonEmptyAttrs := ∅;
     SubstituteAttrs := ∅; MergeableAttrs := ∅; ResolveAttrs := ∅ |}.

Record File := { Rules : list Rule }.

End rule.

(** Modelled from the spec: the operating modes of the proto extension are
    declared in config.go, which is not among the sources; the default mode
    is the single-canonical mode, the package mode the multi-package mode. *)
Inductive Mode :=
| DefaultMode
| DisableMode
| DisableGlobalMode
| LegacyMode
| PackageMode.

Global Instance Mode_eq_dec : EqDecision Mode.
Proof. solve_decision. Defined.

(** Modelled from the spec: [Mode.ShouldGenerateRules] is declared in
    config.go.  Rules are generated in the single-canonical mode and in the
    multi-package mode. *)
Definition ShouldGenerateRules (m : Mode) : bool :=
  match m with
  | DefaultMode | PackageMode => true
  | _ => false
  end.

Record ProtoConfig := {
  Mode_ : Mode;
  GoPrefix : string;
  groupOption : string;
}.

(** [config.Config]: the kind mapping [MapKind], declared in package
    config, is a parameter; [GetProtoConfig] reads the extension's part. *)
Record Config := {
  MapKind : string -> string;
  GetProtoConfig : ProtoConfig;
}.

(** [language.GenerateArgs], with the fields that the generator reads. *)
Record GenerateArgs := {
  Config_ : Config;
  Dir : string;
  Rel : string;
  File : option rule.File;
  RegularFiles : list string;
  GenFiles : list string;
}.

(** Modelled from the spec: the fixed keys of the private attributes are
    declared outside the sources ([config.GazelleImportsKey] in package
    config, [PackageKey] in package.go).  The first is the name under which
    the imports show in printed rules. *)
Definition GazelleImportsKey : string := "_gazelle_imports".
Definition PackageKey : string := "_package".

(** ** Iteration order of [range] over a map

    The order is unspecified in Go: any enumeration of the entries without
    repetition can be the one that a loop sees. *)
Class RangeOrder := {
  range_keys : gset string -> list string;
  range_keys_perm : forall X, range_keys X ≡ₚ elements X;
  range_map : forall {A}, gmap string A -> list (string * A);
  range_map_perm : forall A (m : gmap string A), range_map m ≡ₚ map_to_list m;
}.

(** [sort.Strings]: ascending in the byte-wise order of Go strings. *)
Definition sortStrings (l : list string) : list string :=
  merge_sort String.le l.

(** ** The generator (generate.go) *)

Record generator := {
  c : Config;
  file : option rule.File;
  rel : string;
  shouldSetVisibility : bool;
  regularProtoFiles : list string;
  genProtoFiles : list string;
}.

(** [hasDefaultVisibility]: whether the file has a [package] rule with a
    [default_visibility] attribute. *)
Definition hasDefaultVisibility (f : option rule.File) : bool :=
  match f with
  | None => false
  | Some f =>
      existsb (fun r => String.eqb (rule.Kind r) "package" &&
                        bool_decide (is_Some (rule.Attr r "default_visibility")))
              (rule.Rules f)
  end.

(** [newGenerator].  In the second loop the code appends to [args.GenFiles],
    not to [genProtoFiles]: every generated name with the suffix resets
    [genProtoFiles] to all of [args.GenFiles] followed by that name. *)
Definition newGenerator (args : GenerateArgs) : generator :=
  let regularProtoFiles :=
    foldl (fun acc name => if HasSuffix name ".proto" then acc ++ [name] else acc)
          [] (RegularFiles args) in
  let genProtoFiles :=
    foldl (fun acc name => if HasSuffix name ".proto" then GenFiles args ++ [name] else acc)
          [] (GenFiles args) in
  let shouldSetVisibility :=
    bool_decide (File args = None) || negb (hasDefaultVisibility (File args)) in
  {| c := Config_ args;
     file := File args;
     rel := Rel args;
     shouldSetVisibility := shouldSetVisibility;
     regularProtoFiles := regularProtoFiles;
     genProtoFiles := genProtoFiles |}.

(** [newRule]: a new rule, with the configured kind mapping applied. *)
Definition newRule (g : generator) (ruleKind ruleName : string) : rule.Rule :=
  rule.NewRule (MapKind (c g) ruleKind) ruleName.

(** [checkInternalVisibility]. *)
Definition checkInternalVisibility (rel visibility : string) : string :=
  let i := LastIndex rel "/internal/" in
  if 0 <=? i then "//" +:+ sliceTo (Z.to_nat i) rel +:+ ":__subpackages__"
  else if HasPrefix rel "internal/" then "//:__subpackages__"
  else visibility.

(** The message of the error of [selectPackage]. *)
Definition multiplePackagesError (dir : string) : string :=
  dir +:+ ": directory contains multiple proto packages. Gazelle can only generate a proto_library for one package.".

Section Generate.
Context `{RangeOrder}.

(** [goPackageName]. *)
Definition goPackageName (pkg : Package) : string :=
  match Options pkg !! "go_package" with
  | Some opt =>
      let i := IndexByte opt ";" in
      if 0 <=? i then sliceFrom (Z.to_nat (i + 1)) opt else
      let i := LastIndexByte opt "/" in
      if 0 <=? i then sliceFrom (Z.to_nat (i + 1)) opt else
      opt
  | None =>
      if negb (String.eqb (Name pkg) "") then Replace (Name pkg) "." "_" else
      match (if (size (Files pkg) =? 1)%nat then head (range_keys (Files pkg)) else None) with
      | Some s => TrimSuffix s ".proto"
      | None => ""
      end
  end.

(** [selectPackage]: the package and the error ([None] for [nil]). *)
Definition selectPackage (dir rel : string) (packageMap : gmap string Package)
  : option Package * option string :=
  if (size packageMap =? 0)%nat then (None, None) else
  match (if (size packageMap =? 1)%nat then head (range_map packageMap).*2 else None) with
  | Some pkg => (Some pkg, None)
  | None =>
      let defaultPackageName := Replace rel "/" "_" in
      match List.find (fun pkg => let pkgName := goPackageName pkg in
                                  negb (String.eqb pkgName "") &&
                                  String.eqb pkgName defaultPackageName)
                      (range_map packageMap).*2 with
      | Some pkg => (Some pkg, None)
      | None => (None, Some (multiplePackagesError dir))
      end
  end.

(** The analyzer of a file, from fileinfo.go. *)
Variable protoFileInfo : string -> string -> FileInfo.

(** The first loop of [buildPackages]: the map of the packages of the
    regular proto files. *)
Definition buildPackageMap (g : generator) (pc : ProtoConfig) (dir : string)
  : gmap string Package :=
  foldl (fun (packageMap : gmap string Package) name =>
           let info := protoFileInfo dir name in
           let key :=
             if negb (String.eqb (groupOption pc) "") then
               match List.find (fun opt => String.eqb (Key opt) (groupOption pc))
                               (FileOptions info) with
               | Some opt => Value opt
               | None => PackageName info
               end
             else PackageName info in
           let packageMap :=
             match packageMap !! key with
             | None => <[key := newPackage (PackageName info)]> packageMap
             | Some _ => packageMap
             end in
           alter (addFile info) key packageMap)
        ∅ (regularProtoFiles g).

(** [buildPackages]: the packages to generate rules for, and what was
    given to [log.Print]. *)
Definition buildPackages (g : generator) (pc : ProtoConfig) (dir : string)
  : list Package * list string :=
  let packageMap := buildPackageMap g pc dir in
  match Mode_ pc with
  | DefaultMode =>
      let '(pkg, err) := selectPackage dir (rel g) packageMap in
      let log := match err with Some e => [e] | None => [] end in
      match pkg with
      | None => ([], log)
      | Some pkg =>
          ([foldl (fun pkg name => addGenFile dir name pkg) pkg (genProtoFiles g)], log)
      end
  | PackageMode => ((range_map packageMap).*2, [])
  | _ => ([], [])
  end.

(** [generateProto]. *)
Definition generateProto (g : generator) (pc : ProtoConfig) (pkg : Package) : rule.Rule :=
  let name :=
    if decide (Mode_ pc = DefaultMode)
    then RuleName [goPackageName pkg; GoPrefix pc; rel g]
    else RuleName [Options pkg !!! groupOption pc; Name pkg; rel g] in
  let r := newRule g "proto_library" name in
  let srcs := sortStrings (range_keys (Files pkg)) in
  let r := if (0 <? length srcs)%nat
           then rule.SetAttr r "srcs" (rule.StringList srcs) else r in
  let r := rule.SetPrivateAttr r PackageKey (rule.PackageValue pkg) in
  let imports := sortStrings (range_keys (Imports pkg)) in
  let r := rule.SetPrivateAttr r GazelleImportsKey (rule.StringsValue imports) in
  let r := foldl (fun r kv => rule.SetPrivateAttr r kv.1 (rule.StringValue kv.2))
                 r (range_map (Options pkg)) in
  if shouldSetVisibility g
  then rule.SetAttr r "visibility"
         (rule.StringList [checkInternalVisibility (rel g) "//visibility:public"])
  else r.

(** The set [knownFiles] of [generateEmpty]. *)
Definition knownFiles (g : generator) : gmap string bool :=
  let known := foldl (fun m f => <[f := true]> m) ∅ (regularProtoFiles g) in
  foldl (fun m f => <[f := true]> m) known (genProtoFiles g).

(** [knownFiles[src]]: [false] for a missing key. *)
Definition isKnown (known : gmap string bool) (src : string) : bool :=
  default false (known !! src).

(** The body of the loop of [generateEmpty] for one existing rule: the
    empty rule appended for it, or [None] when the loop continues. *)
Definition emptyRuleFor (g : generator) (known : gmap string bool) (r : rule.Rule)
  : option rule.Rule :=
  if negb (String.eqb (rule.Kind r) (MapKind (c g) "proto_library")) then None else
  let srcs := rule.AttrStrings r "srcs" in
  if (length srcs =? 0)%nat && bool_decide (is_Some (rule.Attr r "srcs")) then None else
  if existsb (isKnown known) (rule.AttrStrings r "srcs") then None else
  Some (newRule g "proto_library" (rule.Name r)).

(** [generateEmpty]. *)
Definition generateEmpty (g : generator) : list rule.Rule :=
  match file g with
  | None => []
  | Some f => omap (emptyRuleFor g (knownFiles g)) (rule.Rules f)
  end.

(** [rule.IsEmpty] and the table [protoKinds] (kinds.go of package proto)
    are not among the sources. *)
Variable IsEmpty : rule.Rule -> rule.KindInfo -> bool.
Variable protoKinds : gmap string rule.KindInfo.

(** [sort.SliceStable(gen, ...)] by rule name: a stable insertion. *)
Fixpoint insertByName (r : rule.Rule) (l : list rule.Rule) : list rule.Rule :=
  match l with
  | [] => [r]
  | r' :: l' =>
      if String.ltb (rule.Name r') (rule.Name r) then r' :: insertByName r l'
      else r :: l
  end.

Definition sortStableByName (l : list rule.Rule) : list rule.Rule :=
  foldr insertByName [] l.

(** [GenerateRules]: the rules [empty] and [gen], and the log. *)
Definition GenerateRules (args : GenerateArgs)
  : list rule.Rule * list rule.Rule * list string :=
  let c := Config_ args in
  let pc := GetProtoConfig c in
  if negb (ShouldGenerateRules (Mode_ pc)) then ([], [], []) else
  let g := newGenerator args in
  let '(pkgs, log) := buildPackages g pc (Dir args) in
  let '(empty, gen) :=
    foldl (fun '(empty, gen) pkg =>
             let r := generateProto g pc pkg in
             if IsEmpty r (default rule.zeroKindInfo (protoKinds !! rule.Kind r))
             then (empty ++ [r], gen) else (empty, gen ++ [r]))
          ([], []) pkgs in
  let gen := sortStableByName gen in
  let empty := empty ++ generateEmpty g in
  (empty, gen, log).

End Generate.

(** ** The kind table of the Go extension (language/go/kinds.go) *)

(** A literal [map[string]bool{k1: true, k2: true, ...}]. *)
Definition allTrue (keys : list string) : gmap string bool :=
  list_to_map ((fun k => (k, true)) <$> keys).

Definition goKinds : gmap string rule.KindInfo :=
  list_to_map [
    ("alias",
     {| rule.MatchAny := false; rule.MatchAttrs := [];
        rule.NonEmptyAttrs := allTrue ["actual"];
        rule.SubstituteAttrs := ∅;
        rule.MergeableAttrs := allTrue ["actual"];
        rule.ResolveAttrs := ∅ |});
    ("filegroup",
     {| rule.MatchAny := false; rule.MatchAttrs := [];
        rule.NonEmptyAttrs := allTrue ["srcs"];
        rule.SubstituteAttrs := ∅;
        rule.MergeableAttrs := allTrue ["srcs"];
        rule.ResolveAttrs := ∅ |});
    ("go_binary",
     {| rule.MatchAny := true; rule.MatchAttrs := [];
        rule.NonEmptyAttrs := allTrue ["deps"; "embed"; "srcs"];
        rule.SubstituteAttrs := allTrue ["embed"];
        rule.MergeableAttrs :=
          allTrue ["cgo"; "clinkopts"; "cppopts"; "copts"; "cxxopts"; "embed"; "srcs"];
        rule.ResolveAttrs := allTrue ["deps"] |});
    ("go_library",
     {| rule.MatchAny := false; rule.MatchAttrs := ["importpath"];
        rule.NonEmptyAttrs := allTrue ["deps"; "embed"; "srcs"];
        rule.SubstituteAttrs := allTrue ["embed"];
        rule.MergeableAttrs :=
          allTrue ["cgo"; "clinkopts"; "cppopts"; "copts"; "cxxopts"; "embed";
                   "importmap"; "importpath"; "srcs"];
        rule.ResolveAttrs := allTrue ["deps"] |});
    ("yext_protos", rule.zeroKindInfo);
    ("go_proto_library",
     {| rule.MatchAny := false; rule.MatchAttrs := ["importpath"];
        rule.NonEmptyAttrs := allTrue ["deps"; "embed"; "proto"; "srcs"];
        rule.SubstituteAttrs := allTrue ["proto"];
        rule.MergeableAttrs :=
          allTrue ["srcs"; "importpath"; "importmap"; "cgo"; "clinkopts"; "cppopts";
                   "copts"; "cxxopts"; "embed"; "proto"; "compilers"];
        rule.ResolveAttrs := allTrue ["deps"] |});
    ("go_repository",
     {| rule.MatchAny := false; rule.MatchAttrs := ["importpath"];
        rule.NonEmptyAttrs := allTrue ["importpath"];
        rule.SubstituteAttrs := ∅;
        rule.MergeableAttrs :=
          allTrue ["commit"; "build_tags"; "importpath"; "remote"; "replace"; "sha256";
                   "strip_prefix"; "sum"; "tag"; "type"; "urls"; "vcs"; "version"];
        rule.ResolveAttrs := ∅ |});
    ("go_test",
     {| rule.MatchAny := false; rule.MatchAttrs := [];
        rule.NonEmptyAttrs := allTrue ["deps"; "embed"; "srcs"];
        rule.SubstituteAttrs := ∅;
        rule.MergeableAttrs :=
          allTrue ["cgo"; "clinkopts"; "cppopts"; "copts"; "cxxopts"; "embed"; "srcs"];
        rule.ResolveAttrs := allTrue ["deps"] |});
    ("go_tool_library",
     {| rule.MatchAny := false; rule.MatchAttrs := ["importpath"];
        rule.NonEmptyAttrs := allTrue ["deps"; "embed"; "srcs"];
        rule.SubstituteAttrs := allTrue ["embed"];
        rule.MergeableAttrs :=
          allTrue ["cgo"; "clinkopts"; "cppopts"; "copts"; "cxxopts"; "embed";
                   "importmap"; "importpath"; "srcs"];
        rule.ResolveAttrs := allTrue ["deps"] |})
  ].

(** [m[k]] for a [map[string]bool]. *)
Definition inAttrs (m : gmap string bool) (k : string) : bool :=
  default false (m !! k).

(** The five policy sets of a kind; the identity-matching attributes are a
    list in the code. *)
Definition policySets (info : rule.KindInfo) : list (string -> bool) :=
  [ (fun k => bool_decide (k ∈ rule.MatchAttrs info));
    inAttrs (rule.NonEmptyAttrs info);
    inAttrs (rule.MergeableAttrs info);
    inAttrs (rule.SubstituteAttrs info);
    inAttrs (rule.ResolveAttrs info) ].

(** The attribute names that the policy sets of a kind mention. *)
Definition referencedAttrs (info : rule.KindInfo) : list string :=
  rule.MatchAttrs info ++
  (map_to_list (rule.NonEmptyAttrs info)).*1 ++
  (map_to_list (rule.MergeableAttrs info)).*1 ++
  (map_to_list (rule.SubstituteAttrs info)).*1 ++
  (map_to_list (rule.ResolveAttrs info)).*1.

(** In how many of the given sets an attribute name is. *)
Definition countSets (sets : list (string -> bool)) (k : string) : nat :=
  length (filter (fun s => s k = true) sets).

(** * Properties *)

(** ** Byte strings *)

Definition bytes (s : string) : list ascii := list_ascii_of_string s.

(** The string with every byte replaced by its image. *)
Fixpoint mapBytes (f : ascii -> ascii) (s : string) : string :=
  match s with
  | EmptyString => EmptyString
  | String a s' => String (f a) (mapBytes f s')
  end.

Definition replaceByte (a b : ascii) (c : ascii) : ascii :=
  if Ascii.eqb c a then b else c.

Lemma app_string_nil (t : string) : "" +:+ t = t.
Proof. reflexivity. Qed.

Lemma app_string_cons (a : ascii) (s t : string) :
  String a s +:+ t = String a (s +:+ t).
Proof. reflexivity. Qed.

Ltac unfold_app := repeat (rewrite app_string_cons || rewrite app_string_nil).

Lemma length_app_string (s t : string) :
  String.length (s +:+ t) = (String.length s + String.length t)%nat.
Proof. induction s as [|a s IH]; simpl; [done | by rewrite IH]. Qed.

Lemma bytes_app (s t : string) : bytes (s +:+ t) = bytes s ++ bytes t.
Proof. induction s as [|a s IH]; simpl; [done | by rewrite <- IH]. Qed.

Lemma sliceFrom_app (s t : string) : sliceFrom (String.length s) (s +:+ t) = t.
Proof. induction s as [|a s IH]; simpl; [by destruct t | done]. Qed.

Lemma sliceTo_app (s t : string) : sliceTo (String.length s) (s +:+ t) = s.
Proof. induction s as [|a s IH]; simpl; [by destruct t | by rewrite IH]. Qed.

Lemma sliceFrom_0 (s : string) : sliceFrom 0 s = s.
Proof. by destruct s. Qed.

Lemma HasPrefix_app (s t : string) : HasPrefix (s +:+ t) s = true.
Proof.
  induction s as [|a s IH]; simpl; [done |].
  by rewrite Ascii.eqb_refl, IH.
Qed.

Lemma HasPrefix_inv (s pre : string) :
  HasPrefix s pre = true -> exists t, s = pre +:+ t.
Proof.
  revert s. induction pre as [|b pre IH]; intros s Hp; simpl in *.
  - by exists s.
  - destruct s as [|a s]; [done |].
    apply andb_true_iff in Hp as [Hab Hp]. apply Ascii.eqb_eq in Hab as ->.
    destruct (IH _ Hp) as [t ->]. by exists t.
Qed.

Lemma Replace_loop_byte (a b : ascii) (fuel : nat) (s : string) :
  (String.length s <= fuel)%nat ->
  Replace_loop fuel s (String a "") (String b "") = mapBytes (replaceByte a b) s.
Proof.
  revert s. induction fuel as [|fuel IH]; intros s Hlen.
  - destruct s; [done | simpl in Hlen; lia].
  - destruct s as [|c s]; [done |].
    simpl in Hlen. cbn [Replace_loop HasPrefix String.length sliceFrom mapBytes].
    unfold replaceByte at 1. destruct (Ascii.eqb c a); simpl.
    + f_equal. apply IH. lia.
    + f_equal. apply IH. lia.
Qed.

(** Replacing a one-byte string by another replaces that byte everywhere. *)
Lemma Replace_byte (a b : ascii) (s : string) :
  Replace s (String a "") (String b "") = mapBytes (replaceByte a b) s.
Proof. apply Replace_loop_byte. done. Qed.

Lemma IndexByte_absent (s : string) (c : ascii) :
  c ∉ bytes s -> IndexByte s c = -1.
Proof.
  induction s as [|a s IH]; simpl; [done |].
  intros Hn. apply not_elem_of_cons in Hn as [Hne Hn].
  destruct (Ascii.eqb_spec a c); [congruence |].
  by rewrite (IH Hn).
Qed.

Lemma IndexByte_first (pre post : string) (c : ascii) :
  c ∉ bytes pre ->
  IndexByte (pre +:+ String c post) c = Z.of_nat (String.length pre).
Proof.
  induction pre as [|a pre IH]; simpl.
  - by rewrite Ascii.eqb_refl.
  - intros Hn. apply not_elem_of_cons in Hn as [Hne Hn].
    destruct (Ascii.eqb_spec a c); [congruence |].
    rewrite (IH Hn). destruct (Z.leb_spec 0 (Z.of_nat (String.length pre))); lia.
Qed.

Lemma LastIndexByte_absent (s : string) (c : ascii) :
  c ∉ bytes s -> LastIndexByte s c = -1.
Proof.
  induction s as [|a s IH]; simpl; [done |].
  intros Hn. apply not_elem_of_cons in Hn as [Hne Hn].
  rewrite (IH Hn). simpl.
  destruct (Ascii.eqb_spec a c); [congruence | done].
Qed.

Lemma LastIndexByte_last (pre post : string) (c : ascii) :
  c ∉ bytes post ->
  LastIndexByte (pre +:+ String c post) c = Z.of_nat (String.length pre).
Proof.
  intros Hn. induction pre as [|a pre IH]; simpl.
  - rewrite (LastIndexByte_absent _ _ Hn). simpl. by rewrite Ascii.eqb_refl.
  - rewrite IH. destruct (Z.leb_spec 0 (Z.of_nat (String.length pre))); lia.
Qed.

Lemma app_string_assoc (s t u : string) : (s +:+ t) +:+ u = s +:+ (t +:+ u).
Proof. induction s as [|a s IH]; unfold_app; [done | by rewrite IH]. Qed.

Lemma sliceFrom_after (pre post : string) (c : ascii) :
  sliceFrom (Z.to_nat (Z.of_nat (String.length pre) + 1)) (pre +:+ String c post) = post.
Proof.
  change (String c post) with (String c "" +:+ post).
  rewrite <- app_string_assoc.
  replace (Z.to_nat (Z.of_nat (String.length pre) + 1))
    with (String.length (pre +:+ String c "")).
  - apply sliceFrom_app.
  - rewrite length_app_string. simpl. lia.
Qed.

Lemma HasSuffix_app (s suf : string) : HasSuffix (s +:+ suf) suf = true.
Proof.
  unfold HasSuffix. rewrite length_app_string.
  replace (String.length s + String.length suf - String.length suf)%nat
    with (String.length s) by lia.
  rewrite sliceFrom_app, String.eqb_refl.
  apply andb_true_iff. split; [| done]. apply Nat.leb_le. lia.
Qed.

Lemma TrimSuffix_app (s suf : string) : TrimSuffix (s +:+ suf) suf = s.
Proof.
  unfold TrimSuffix. rewrite HasSuffix_app, length_app_string.
  replace (String.length s + String.length suf - String.length suf)%nat
    with (String.length s) by lia.
  apply sliceTo_app.
Qed.

(** ** Guessed names and the selection of a package *)

(** The enumeration order that lists a map by its internal order. *)
Program Definition canonicalOrder : RangeOrder :=
  {| range_keys := elements; range_map := fun A m => map_to_list m |}.
Next Obligation. reflexivity. Qed.
Next Obligation. reflexivity. Qed.

(** The guessed external name of a package, in the words of the
    specification: the value of the override option after a [;], else
    after its last [/], else as it is; without the option, the declared
    name with dots replaced; without a name, the only member file without
    its [.proto] extension (the file name itself when it has another
    ending); the empty name when a package without the option and without
    a name has no member file or several. *)
Inductive guessedExternalName (pkg : Package) : string -> Prop :=
| guess_after_semicolon pre post :
    Options pkg !! "go_package" = Some (pre +:+ ";" +:+ post) ->
    ";"%char ∉ bytes pre ->
    guessedExternalName pkg post
| guess_after_slash pre post :
    Options pkg !! "go_package" = Some (pre +:+ "/" +:+ post) ->
    ";"%char ∉ bytes (pre +:+ "/" +:+ post) ->
    "/"%char ∉ bytes post ->
    guessedExternalName pkg post
| guess_raw opt :
    Options pkg !! "go_package" = Some opt ->
    ";"%char ∉ bytes opt ->
    "/"%char ∉ bytes opt ->
    guessedExternalName pkg opt
| guess_declared_name :
    Options pkg !! "go_package" = None ->
    Name pkg <> "" ->
    guessedExternalName pkg (mapBytes (replaceByte "." "_") (Name pkg))
| guess_only_file base :
    Options pkg !! "go_package" = None ->
    Name pkg = "" ->
    Files pkg = {[ base +:+ ".proto" ]} ->
    guessedExternalName pkg base
| guess_only_file_other f :
    Options pkg !! "go_package" = None ->
    Name pkg = "" ->
    Files pkg = {[ f ]} ->
    (forall base, f <> base +:+ ".proto") ->
    guessedExternalName pkg f
| guess_nothing :
    Options pkg !! "go_package" = None ->
    Name pkg = "" ->
    size (Files pkg) <> 1%nat ->
    guessedExternalName pkg "".

(** A string that has the byte [c] splits at its first [c]. *)
Lemma split_first_byte (c : ascii) (s : string) :
  c ∈ bytes s -> exists pre post, s = pre +:+ String c post /\ c ∉ bytes pre.
Proof.
  induction s as [|a s IH]; simpl; [by intros ?%elem_of_nil |].
  intros Hin. destruct (decide (a = c)) as [-> | Hne].
  - exists "", s. split; [done |]. simpl. apply not_elem_of_nil.
  - apply elem_of_cons in Hin as [-> | Hin]; [done |].
    destruct (IH Hin) as (pre & post & -> & Hpre).
    exists (String a pre), post. split; [done |].
    simpl. apply not_elem_of_cons. split; [congruence | done].
Qed.

(** A string that has the byte [c] splits at its last [c]. *)
Lemma split_last_byte (c : ascii) (s : string) :
  c ∈ bytes s -> exists pre post, s = pre +:+ String c post /\ c ∉ bytes post.
Proof.
  induction s as [|a s IH]; simpl; [by intros ?%elem_of_nil |].
  intros Hin. destruct (decide (c ∈ bytes s)) as [Hs | Hs].
  - destruct (IH Hs) as (pre & post & -> & Hpost).
    by exists (String a pre), post.
  - apply elem_of_cons in Hin as [-> | Hin]; [| done].
    by exists "", s.
Qed.

Lemma sliceTo_sliceFrom (i : nat) (s : string) : sliceTo i s +:+ sliceFrom i s = s.
Proof.
  revert s. induction i as [|i IH]; intros s; [by destruct s |].
  destruct s as [|a s]; [done |]. cbn [sliceTo sliceFrom]. unfold_app. by rewrite IH.
Qed.

Lemma HasSuffix_inv (s suf : string) :
  HasSuffix s suf = true -> exists base, s = base +:+ suf.
Proof.
  unfold HasSuffix. intros [_ Heq%String.eqb_eq]%andb_true_iff.
  exists (sliceTo (String.length s - String.length suf) s).
  pose proof (sliceTo_sliceFrom (String.length s - String.length suf) s) as Hs.
  by rewrite Heq in Hs.
Qed.

Lemma map_size_1_singleton {A} (m : gmap string A) :
  size m = 1%nat -> exists k v, m = {[k := v]}.
Proof.
  rewrite <- length_map_to_list. intros Hlen.
  destruct (map_to_list m) as [|[k v] [|? ?]] eqn:Hl; try done.
  exists k, v. rewrite <- (list_to_map_to_list m), Hl. simpl.
  by rewrite insert_empty.
Qed.

Section Selection.
Context `{RangeOrder}.

Lemma range_keys_singleton (x : string) : range_keys {[x]} = [x].
Proof.
  apply Permutation_singleton_r.
  rewrite range_keys_perm. by rewrite elements_singleton.
Qed.

Lemma range_map_singleton {A} (k : string) (v : A) : range_map ({[k := v]} : gmap string A) = [(k, v)].
Proof.
  apply Permutation_singleton_r.
  rewrite range_map_perm. by rewrite map_to_list_singleton.
Qed.

Lemma elem_of_range_map {A} (m : gmap string A) (k : string) (v : A) :
  (k, v) ∈ range_map m <-> m !! k = Some v.
Proof. rewrite range_map_perm. apply elem_of_map_to_list. Qed.

Lemma elem_of_range_values {A} (m : gmap string A) (v : A) :
  v ∈ (range_map m).*2 <-> exists k, m !! k = Some v.
Proof.
  rewrite list_elem_of_fmap. split.
  - intros [[k v'] [-> Hin]]. exists k. by apply elem_of_range_map.
  - intros [k Hk]. exists (k, v). split; [done |]. by apply elem_of_range_map.
Qed.

(** The code computes the guessed external name. *)
Lemma goPackageName_guessed (pkg : Package) (n : string) :
  guessedExternalName pkg n -> goPackageName pkg = n.
Proof.
  unfold goPackageName. intros [pre post Hopt Hsemi|pre post Hopt Hsemi Hslash
    |opt Hopt Hsemi Hslash|Hopt Hname|base Hopt Hname Hfiles
    |f Hopt Hname Hfiles Hext|Hopt Hname Hsize]; rewrite Hopt;
    unfold_app; try (revert Hsemi; unfold_app; intros Hsemi).
  - rewrite (IndexByte_first pre post ";" Hsemi).
    destruct (Z.leb_spec 0 (Z.of_nat (String.length pre))); [| lia].
    apply sliceFrom_after.
  - rewrite (IndexByte_absent _ _ Hsemi). simpl.
    rewrite (LastIndexByte_last pre post "/" Hslash).
    destruct (Z.leb_spec 0 (Z.of_nat (String.length pre))); [| lia].
    apply sliceFrom_after.
  - rewrite (IndexByte_absent _ _ Hsemi). simpl.
    by rewrite (LastIndexByte_absent _ _ Hslash).
  - destruct (String.eqb_spec (Name pkg) ""); [done |]. simpl.
    apply Replace_byte.
  - rewrite Hname, Hfiles.
    rewrite size_singleton. rewrite range_keys_singleton. simpl.
    apply TrimSuffix_app.
  - rewrite Hname, Hfiles.
    rewrite size_singleton. rewrite range_keys_singleton. simpl.
    unfold TrimSuffix. destruct (HasSuffix f ".proto") eqn:Hsuf; [| done].
    apply HasSuffix_inv in Hsuf as [base ->]. by destruct (Hext base).
  - rewrite Hname. simpl. by destruct (Nat.eqb_spec (size (Files pkg)) 1).
Qed.

(** Every package has a guessed external name. *)
Lemma guessedExternalName_total (pkg : Package) :
  exists n, guessedExternalName pkg n.
Proof.
  destruct (Options pkg !! "go_package") as [opt|] eqn:Hopt.
  - destruct (decide (";"%char ∈ bytes opt)) as [Hsemi | Hsemi].
    { destruct (split_first_byte _ _ Hsemi) as (pre & post & -> & Hpre).
      exists post. by apply (guess_after_semicolon pkg pre post). }
    destruct (decide ("/"%char ∈ bytes opt)) as [Hslash | Hslash].
    { destruct (split_last_byte _ _ Hslash) as (pre & post & -> & Hpost).
      exists post. by apply (guess_after_slash pkg pre post). }
    exists opt. by apply guess_raw.
  - destruct (decide (Name pkg = "")) as [Hname | Hname];
      [| eexists; by apply guess_declared_name].
    destruct (decide (size (Files pkg) = 1%nat)) as [Hsize | Hsize];
      [| exists ""; by apply guess_nothing].
    apply size_1_elem_of in Hsize as [f Hf]. apply leibniz_equiv in Hf.
    destruct (HasSuffix f ".proto") eqn:Hsuf.
    + apply HasSuffix_inv in Hsuf as [base ->].
      exists base. by apply guess_only_file.
    + exists f. apply guess_only_file_other; [done | done | done |].
      intros base ->. by rewrite HasSuffix_app in Hsuf.
Qed.

(** The name that the code computes is the guessed external name, and the
    only one. *)
Lemma goPackageName_iff (pkg : Package) (n : string) :
  guessedExternalName pkg n <-> goPackageName pkg = n.
Proof.
  split; [apply goPackageName_guessed |].
  intros <-. destruct (guessedExternalName_total pkg) as [n Hn].
  by rewrite (goPackageName_guessed _ _ Hn).
Qed.

Definition matchesDefault (defaultPackageName : string) (pkg : Package) : bool :=
  let pkgName := goPackageName pkg in
  negb (String.eqb pkgName "") && String.eqb pkgName defaultPackageName.

Lemma matchesDefault_true (d : string) (pkg : Package) :
  matchesDefault d pkg = true <-> goPackageName pkg <> "" /\ goPackageName pkg = d.
Proof.
  unfold matchesDefault. rewrite andb_true_iff, negb_true_iff.
  rewrite String.eqb_neq, String.eqb_eq. done.
Qed.

Lemma selectPackage_many (dir rel : string) (m : gmap string Package) :
  (1 < size m)%nat ->
  selectPackage dir rel m =
    match List.find (matchesDefault (Replace rel "/" "_")) (range_map m).*2 with
    | Some pkg => (Some pkg, None)
    | None => (None, Some (multiplePackagesError dir))
    end.
Proof.
  intros Hsize. unfold selectPackage.
  destruct (Nat.eqb_spec (size m) 0); [lia |].
  destruct (Nat.eqb_spec (size m) 1); [lia |].
  reflexivity.
Qed.

(** C8. With exactly one candidate package, selection returns it without
    an error, whatever its name; with no candidate, it returns neither a
    package nor an error. *)
Theorem selectPackage_one_or_none (dir rel : string) (m : gmap string Package) :
  (size m = 1%nat ->
   exists k pkg, m = {[k := pkg]} /\ selectPackage dir rel m = (Some pkg, None)) /\
  (size m = 0%nat -> selectPackage dir rel m = (None, None)).
Proof.
  split.
  - intros Hsize. destruct (map_size_1_singleton m Hsize) as (k & pkg & ->).
    exists k, pkg. split; [done |].
    unfold selectPackage. rewrite map_size_singleton. simpl.
    by rewrite range_map_singleton.
  - intros Hsize. unfold selectPackage. by rewrite Hsize.
Qed.

(** C1. With more than one candidate, the default name is the relative
    path with every slash replaced by an underscore; the name that the code
    computes for a package is its guessed external name and no other; a
    package that selection returns is a candidate whose guessed name is the
    default name, which is then not empty; when some candidate has the
    non-empty default name as its guessed name one such candidate is
    returned, and it is that candidate when no other has the name; when no
    candidate has it, or the default name is empty, no package is returned
    and the error says so. *)
Theorem selectPackage_default_name (dir rel : string) (m : gmap string Package) :
  (1 < size m)%nat ->
  let defaultPackageName := mapBytes (replaceByte "/" "_") rel in
  Replace rel "/" "_" = defaultPackageName /\
  (forall pkg n, guessedExternalName pkg n <-> goPackageName pkg = n) /\
  (forall pkg, (selectPackage dir rel m).1 = Some pkg ->
     (exists k, m !! k = Some pkg) /\
     guessedExternalName pkg defaultPackageName /\ defaultPackageName <> "" /\
     (selectPackage dir rel m).2 = None) /\
  (forall k pkg, m !! k = Some pkg ->
     guessedExternalName pkg defaultPackageName -> defaultPackageName <> "" ->
     (exists pkg', selectPackage dir rel m = (Some pkg', None)) /\
     ((forall k' pkg', m !! k' = Some pkg' ->
         guessedExternalName pkg' defaultPackageName -> pkg' = pkg) ->
      selectPackage dir rel m = (Some pkg, None))) /\
  ((defaultPackageName = "" \/
    forall k pkg, m !! k = Some pkg -> ~ guessedExternalName pkg defaultPackageName) ->
   selectPackage dir rel m = (None, Some (multiplePackagesError dir))).
Proof.
  intros Hsize d. subst d.
  rewrite (selectPackage_many _ _ _ Hsize), Replace_byte.
  set (d := mapBytes (replaceByte "/" "_") rel).
  split; [done |]. split; [apply goPackageName_iff |].
  destruct (List.find (matchesDefault d) (range_map m).*2) as [p|] eqn:Hfind.
  - apply find_some in Hfind as [Hin Hmatch].
    apply list_elem_of_In, elem_of_range_values in Hin.
    apply matchesDefault_true in Hmatch as [Hne Heq].
    split; [| split].
    + intros pkg [= <-]. split; [done |].
      split; [by apply goPackageName_iff |]. split; [congruence | done].
    + intros k pkg Hk Hguess Hd. split; [by exists p |].
      intros Huniq. destruct Hin as [k' Hk'].
      rewrite (Huniq k' p Hk'); [done |]. by apply goPackageName_iff.
    + intros [Hd | Hnone]; [congruence |].
      destruct Hin as [k' Hk']. destruct (Hnone k' p Hk'). by apply goPackageName_iff.
  - split; [done |]. split; [| done].
    intros k pkg Hk Hguess Hd. exfalso.
    assert (Hin : pkg ∈ (range_map m).*2) by (apply elem_of_range_values; eauto).
    apply list_elem_of_In in Hin.
    pose proof (find_none _ _ Hfind _ Hin) as Hno.
    apply goPackageName_iff in Hguess.
    assert (matchesDefault d pkg = true) by (apply matchesDefault_true; split; congruence).
    congruence.
Qed.

End Selection.

(** ** Example: directory foo/bar with the packages p1 and p2 *)

Definition p1 : Package :=
  {| Name := "p1"; Files := {["a.proto"]}; Imports := ∅; Options := ∅ |}.

Definition p2 : Package :=
  {| Name := "p2"; Files := {["b.proto"]}; Imports := ∅;
     Options := {["go_package" := "example.com/repo/foo_bar"]} |}.

Definition fooBarPackages : gmap string Package :=
  <["p1" := p1]> (<["p2" := p2]> ∅).

Ltac by_compute := refine (bool_decide_unpack _ _); vm_compute; exact I.

Lemma selectPackage_one_or_none_witness :
  (size ({["p1" := p1]} : gmap string Package) = 1%nat /\
   exists k pkg, ({["p1" := p1]} : gmap string Package) = {[k := pkg]} /\
     selectPackage (H := canonicalOrder) "foo" "foo" {["p1" := p1]} = (Some pkg, None)) /\
  selectPackage (H := canonicalOrder) "foo" "foo" ∅ = (None, None).
Proof.
  split; [split |].
  - reflexivity.
  - apply (selectPackage_one_or_none (H := canonicalOrder)). reflexivity.
  - apply (selectPackage_one_or_none (H := canonicalOrder) "foo" "foo" ∅). reflexivity.
Defined.

Definition twoFilesNameless : Package :=
  {| Name := ""; Files := {["a.proto"; "b.proto"]}; Imports := ∅; Options := ∅ |}.

Definition namelessPackages : gmap string Package :=
  <["" := twoFilesNameless]> (<["p1" := p1]> ∅).

(** Directory foo/bar: the guessed names are p1 and foo_bar, the default
    name is foo_bar, and p2 is selected.  Directory a with a nameless
    package of two files and the package p1: the nameless package has the
    empty guessed name, and selection returns the error. *)
Lemma selectPackage_default_name_witness :
  ((1 < size fooBarPackages)%nat /\
   goPackageName (H := canonicalOrder) p1 = "p1" /\
   goPackageName (H := canonicalOrder) p2 = "foo_bar" /\
   Replace "foo/bar" "/" "_" = "foo_bar" /\
   selectPackage (H := canonicalOrder) "foo/bar" "foo/bar" fooBarPackages = (Some p2, None)) /\
  ((1 < size namelessPackages)%nat /\
   goPackageName (H := canonicalOrder) twoFilesNameless = "" /\
   selectPackage (H := canonicalOrder) "/repo/a" "a" namelessPackages
     = (None, Some (multiplePackagesError "/repo/a"))).
Proof.
  split.
  - assert (Hsize : (1 < size fooBarPackages)%nat) by (vm_compute; lia).
    destruct (selectPackage_default_name (H := canonicalOrder) "foo/bar" "foo/bar"
                fooBarPackages Hsize) as (Hdef & Hguess & _ & Hsel & _).
    split; [exact Hsize |].
    split; [apply Hguess; apply guess_declared_name; [reflexivity | discriminate] |].
    assert (Hp2 : guessedExternalName p2 "foo_bar").
    { apply (guess_after_slash p2 "example.com/repo" "foo_bar").
      - reflexivity.
      - by_compute.
      - by_compute. }
    split; [by apply Hguess |]. split; [exact Hdef |].
    destruct (Hsel "p2" p2) as [_ Huniq].
    + reflexivity.
    + exact Hp2.
    + discriminate.
    + apply Huniq. intros k' pkg' Hk' Hname.
      unfold fooBarPackages in Hk'.
      destruct (decide (k' = "p1")) as [-> | Hne1].
      * rewrite lookup_insert_eq in Hk'. injection Hk' as <-.
        apply Hguess in Hname. vm_compute in Hname. discriminate.
      * rewrite lookup_insert_ne in Hk' by done.
        destruct (decide (k' = "p2")) as [-> | Hne2].
        -- rewrite lookup_insert_eq in Hk'. by injection Hk' as <-.
        -- rewrite lookup_insert_ne, lookup_empty in Hk' by done. discriminate.
  - assert (Hsize : (1 < size namelessPackages)%nat) by (vm_compute; lia).
    destruct (selectPackage_default_name (H := canonicalOrder) "/repo/a" "a"
                namelessPackages Hsize) as (_ & Hguess & _ & _ & Herr).
    split; [exact Hsize |].
    assert (Hnameless : goPackageName (H := canonicalOrder) twoFilesNameless = "").
    { apply Hguess. apply guess_nothing; [reflexivity | reflexivity |].
      vm_compute. discriminate. }
    split; [exact Hnameless |].
    apply Herr. right. intros k pkg Hk Hname. apply Hguess in Hname.
    unfold namelessPackages in Hk.
    destruct (decide (k = "")) as [-> | Hne1].
    + rewrite lookup_insert_eq in Hk. injection Hk as <-.
      rewrite Hnameless in Hname. vm_compute in Hname. discriminate.
    + rewrite lookup_insert_ne in Hk by done.
      destruct (decide (k = "p1")) as [-> | Hne2].
      * rewrite lookup_insert_eq in Hk. injection Hk as <-.
        vm_compute in Hname. discriminate.
      * rewrite lookup_insert_ne, lookup_empty in Hk by done. discriminate.
Defined.
(** ** Known files and stale rules *)

(** The known files as a set: the regular and the generated proto files of
    the generator. *)
Definition knownSet (g : generator) : gset string :=
  list_to_set (regularProtoFiles g ++ genProtoFiles g).

(** The empty rule for an existing rule: the mapped kind and the name,
    without any attribute. *)
Definition emptyRecord (g : generator) (r : rule.Rule) : rule.Rule :=
  {| rule.kind := MapKind (c g) "proto_library"; rule.name := rule.Name r;
     rule.attrs := ∅; rule.private := ∅ |}.

Lemma isKnown_insert_all (l : list string) (m : gmap string bool) (src : string) :
  isKnown (foldl (fun m f => <[f := true]> m) m l) src = true <->
  src ∈ l \/ isKnown m src = true.
Proof.
  revert m. induction l as [|f l IH]; intros m; simpl.
  - rewrite elem_of_nil. tauto.
  - rewrite IH, elem_of_cons. unfold isKnown.
    destruct (decide (f = src)) as [-> | Hne].
    + rewrite lookup_insert_eq. simpl. tauto.
    + rewrite lookup_insert_ne by done. split; [tauto |].
      intros [[Heq | Hin] | Hm]; [congruence | tauto | tauto].
Qed.

Lemma isKnown_knownFiles (g : generator) (src : string) :
  isKnown (knownFiles g) src = true <-> src ∈ knownSet g.
Proof.
  unfold knownFiles, knownSet.
  rewrite !isKnown_insert_all, elem_of_list_to_set, elem_of_app.
  unfold isKnown. rewrite lookup_empty. simpl. intuition discriminate.
Qed.

Lemma existsb_isKnown (g : generator) (l : list string) :
  existsb (isKnown (knownFiles g)) l = true <-> exists src, src ∈ l /\ src ∈ knownSet g.
Proof.
  rewrite existsb_exists. split; intros (src & Hin & Hk); exists src.
  - split; [by apply list_elem_of_In | by apply isKnown_knownFiles].
  - split; [by apply list_elem_of_In | by apply isKnown_knownFiles].
Qed.

Lemma emptyRuleFor_in_generateEmpty (g : generator) (f : rule.File) (r e : rule.Rule) :
  file g = Some f -> r ∈ rule.Rules f ->
  emptyRuleFor g (knownFiles g) r = Some e -> e ∈ generateEmpty g.
Proof.
  intros Hf Hin He. unfold generateEmpty. rewrite Hf.
  apply list_elem_of_omap. eauto.
Qed.

Lemma emptyRuleFor_managed (g : generator) (known : gmap string bool) (r : rule.Rule) :
  rule.Kind r = MapKind (c g) "proto_library" ->
  emptyRuleFor g known r =
    match rule.Attr r "srcs" with
    | Some (rule.StringList (src :: l)) =>
        if existsb (isKnown known) (src :: l) then None else Some (emptyRecord g r)
    | Some _ => None
    | None => Some (emptyRecord g r)
    end.
Proof.
  intros Hkind. unfold emptyRuleFor, rule.AttrStrings, rule.Attr.
  rewrite Hkind, String.eqb_refl. cbn [negb].
  destruct (rule.attrs r !! "srcs") as [[[|src l] | text] |]; try done.
Qed.

Lemma emptyRuleFor_unknown (g : generator) (f : rule.File) (r : rule.Rule)
    (src : string) (l : list string) :
  file g = Some f ->
  r ∈ rule.Rules f ->
  rule.Kind r = MapKind (c g) "proto_library" ->
  rule.Attr r "srcs" = Some (rule.StringList (src :: l)) ->
  (forall s, s ∈ src :: l -> s ∉ knownSet g) ->
  emptyRuleFor g (knownFiles g) r = Some (emptyRecord g r) /\
  emptyRecord g r ∈ generateEmpty g.
Proof.
  intros Hf Hin Hkind Hsrcs Hnone.
  assert (He : emptyRuleFor g (knownFiles g) r = Some (emptyRecord g r)).
  { rewrite (emptyRuleFor_managed _ _ _ Hkind), Hsrcs.
    destruct (existsb (isKnown (knownFiles g)) (src :: l)) eqn:Hex; [| done].
    apply existsb_isKnown in Hex as (s & Hs & Hk). by destruct (Hnone s Hs). }
  split; [exact He |]. by apply (emptyRuleFor_in_generateEmpty g f r).
Qed.

(** C3. For an existing rule of the managed kind whose sources are a plain
    list of strings: no empty rule is appended for it when one of the
    listed sources is a known file; when the list is non-empty and none of
    its names is known, the empty rule with its kind and name, and nothing
    else, is appended and is in the result of [generateEmpty]. *)
Theorem generateEmpty_plain_sources (g : generator) (f : rule.File)
    (r : rule.Rule) (l : list string) :
  file g = Some f ->
  r ∈ rule.Rules f ->
  rule.Kind r = MapKind (c g) "proto_library" ->
  rule.Attr r "srcs" = Some (rule.StringList l) ->
  generateEmpty g = omap (emptyRuleFor g (knownFiles g)) (rule.Rules f) /\
  ((exists src, src ∈ l /\ src ∈ knownSet g) ->
   emptyRuleFor g (knownFiles g) r = None) /\
  (l <> [] -> (forall src, src ∈ l -> src ∉ knownSet g) ->
   emptyRuleFor g (knownFiles g) r = Some (emptyRecord g r) /\
   emptyRecord g r ∈ generateEmpty g).
Proof.
  intros Hf Hin Hkind Hsrcs.
  split; [unfold generateEmpty; by rewrite Hf |].
  split.
  - intros Hknown. rewrite (emptyRuleFor_managed _ _ _ Hkind), Hsrcs.
    destruct l as [|src l]; [done |].
    apply existsb_isKnown in Hknown. by rewrite Hknown.
  - intros Hne Hnone. destruct l as [|src l]; [done |].
    by apply (emptyRuleFor_unknown g f r src l).
Qed.


(** ** Example: an existing rule old_proto whose only source is gone *)

Definition plainConfig : Config :=
  {| MapKind := fun kind => kind;
     GetProtoConfig := {| Mode_ := DefaultMode; GoPrefix := ""; groupOption := "" |} |}.

Definition existingRule (name : string) (srcs : option rule.Expr) : rule.Rule :=
  {| rule.kind := "proto_library"; rule.name := name;
     rule.attrs := match srcs with
                   | Some e => {["srcs" := e]}
                   | None => ∅
                   end;
     rule.private := ∅ |}.

Definition generatorWith (rules : list rule.Rule) (regular : list string) : generator :=
  {| c := plainConfig; file := Some {| rule.Rules := rules |}; rel := "foo/bar";
     shouldSetVisibility := true; regularProtoFiles := regular; genProtoFiles := [] |}.

Definition oldProto : rule.Rule :=
  existingRule "old_proto" (Some (rule.StringList ["gone.src"])).

Definition keptProto : rule.Rule :=
  existingRule "kept_proto" (Some (rule.StringList ["gone.proto"; "new.proto"])).




(** The rule old_proto with sources gone.src, known files new.src: the
    empty rule named old_proto is generated.  The rule kept_proto with the
    sources gone.proto and new.proto, known file new.proto: no rule is
    generated. *)
Lemma generateEmpty_plain_sources_witness :
  generateEmpty (generatorWith [oldProto] ["new.src"]) =
    [rule.NewRule "proto_library" "old_proto"] /\
  generateEmpty (generatorWith [keptProto] ["new.proto"]) = [].
Proof.
  split.
  - pose (g := generatorWith [oldProto] ["new.src"]).
    destruct (generateEmpty_plain_sources g {| rule.Rules := [oldProto] |}
                oldProto ["gone.src"]) as (Hgen & _ & Hstale).
    + reflexivity.
    + constructor.
    + reflexivity.
    + reflexivity.
    + destruct Hstale as [He _].
      * discriminate.
      * intros src Hsrc. apply list_elem_of_singleton in Hsrc as ->. by_compute.
      * fold g. rewrite Hgen. cbn [omap list_omap rule.Rules]. rewrite He. reflexivity.
  - pose (g := generatorWith [keptProto] ["new.proto"]).
    destruct (generateEmpty_plain_sources g {| rule.Rules := [keptProto] |}
                keptProto ["gone.proto"; "new.proto"]) as (Hgen & Hkept & _).
    + reflexivity.
    + constructor.
    + reflexivity.
    + reflexivity.
    + fold g. rewrite Hgen. cbn [omap list_omap rule.Rules]. rewrite Hkept; [reflexivity |].
      exists "new.proto". split; [by_compute | by_compute].
Defined.



(** ** The proto files of the generator *)

Definition isProto (name : string) : bool := HasSuffix name ".proto".

Lemma foldl_append_if {A} (p : A -> bool) (l acc : list A) :
  foldl (fun acc x => if p x then acc ++ [x] else acc) acc l = acc ++ List.filter p l.
Proof.
  revert acc. induction l as [|x l IH]; intros acc; simpl.
  - by rewrite app_nil_r.
  - rewrite IH. destruct (p x); [by rewrite <- app_assoc | done].
Qed.

(** X3. The regular proto files are the regular files with the suffix, in
    their order. *)
Theorem newGenerator_regularProtoFiles (args : GenerateArgs) :
  regularProtoFiles (newGenerator args) = List.filter isProto (RegularFiles args).
Proof. unfold newGenerator; simpl. apply (foldl_append_if isProto _ []). Qed.

Lemma foldl_reset_if {A} (p : A -> bool) (all l acc : list A) :
  foldl (fun acc x => if p x then all ++ [x] else acc) acc l =
    match last (List.filter p l) with
    | Some x => all ++ [x]
    | None => acc
    end.
Proof.
  revert acc. induction l as [|x l IH]; intros acc; simpl; [done |].
  rewrite IH. destruct (p x); [| done].
  rewrite last_cons. by destruct (last (List.filter p l)).
Qed.

(** X4. The generated proto files, as the code computes them: nothing when no
    generated file has the suffix, and otherwise all the generated files,
    whatever their suffix, followed by the last one that has it. *)
Theorem newGenerator_genProtoFiles (args : GenerateArgs) :
  genProtoFiles (newGenerator args) =
    match last (List.filter isProto (GenFiles args)) with
    | Some name => GenFiles args ++ [name]
    | None => []
    end.
Proof. unfold newGenerator; simpl. apply (foldl_reset_if isProto). Qed.

Definition argsWithGenFiles (gen : list string) : GenerateArgs :=
  {| Config_ := plainConfig; Dir := "/repo/foo/bar"; Rel := "foo/bar"; File := None;
     RegularFiles := []; GenFiles := gen |}.

(** C10 fails on the code.  With the generated files gen.pb.go and
    gen.proto, the generated proto files of the generator are gen.pb.go,
    gen.proto and gen.proto again: a name without the suffix is among them
    and among the known files, and gen.proto is there twice. *)
Theorem newGenerator_genProtoFiles_not_filtered :
  let g := newGenerator (argsWithGenFiles ["gen.pb.go"; "gen.proto"]) in
  List.filter isProto ["gen.pb.go"; "gen.proto"] = ["gen.proto"] /\
  genProtoFiles g = ["gen.pb.go"; "gen.proto"; "gen.proto"] /\
  isProto "gen.pb.go" = false /\
  isKnown (knownFiles g) "gen.pb.go" = true.
Proof. repeat split. Qed.

(** ** The kind table *)

(** The mergeable and the resolved attributes of a kind. *)
Definition mergeOrResolve (info : rule.KindInfo) : list (string -> bool) :=
  [ inAttrs (rule.MergeableAttrs info); inAttrs (rule.ResolveAttrs info) ].

(** What holds of a kind of the table: every attribute that one of its
    sets mentions is mergeable or resolved and not both, and the
    identity-matching and substitute attributes are mergeable. *)
Definition kindPartitioned (info : rule.KindInfo) : bool :=
  forallb (fun k => (countSets (mergeOrResolve info) k =? 1)%nat) (referencedAttrs info) &&
  forallb (inAttrs (rule.MergeableAttrs info)) (rule.MatchAttrs info) &&
  forallb (inAttrs (rule.MergeableAttrs info)) (map_to_list (rule.SubstituteAttrs info)).*1.

Lemma goKinds_all_partitioned :
  forallb kindPartitioned (map_to_list goKinds).*2 = true.
Proof. vm_compute. reflexivity. Qed.

Lemma kindPartitioned_all (kinds : gmap string rule.KindInfo)
    (kindName : string) (info : rule.KindInfo) :
  forallb kindPartitioned (map_to_list kinds).*2 = true ->
  kinds !! kindName = Some info ->
  (forall k, k ∈ referencedAttrs info -> countSets (mergeOrResolve info) k = 1%nat) /\
  (forall k, k ∈ rule.MatchAttrs info -> inAttrs (rule.MergeableAttrs info) k = true) /\
  (forall k, inAttrs (rule.SubstituteAttrs info) k = true ->
     inAttrs (rule.MergeableAttrs info) k = true).
Proof.
  intros Hall Hinfo.
  rewrite forallb_forall in Hall.
  assert (Hin : In info (map_to_list kinds).*2).
  { apply list_elem_of_In, list_elem_of_fmap. exists (kindName, info).
    split; [reflexivity |]. apply elem_of_map_to_list. exact Hinfo. }
  specialize (Hall info Hin). unfold kindPartitioned in Hall.
  apply andb_true_iff in Hall as [Hall Hsub].
  apply andb_true_iff in Hall as [Hone Hmatch].
  rewrite forallb_forall in Hone, Hmatch, Hsub.
  split; [| split].
  - intros k Hk. apply Nat.eqb_eq, Hone. by apply list_elem_of_In.
  - intros k Hk. apply Hmatch. by apply list_elem_of_In.
  - intros k Hk. apply Hsub. apply list_elem_of_In, list_elem_of_fmap.
    unfold inAttrs in Hk.
    destruct (rule.SubstituteAttrs info !! k) as [b|] eqn:Hb; [| done].
    exists (k, b). split; [reflexivity |]. apply elem_of_map_to_list. exact Hb.
Qed.

(** C9, as the table has it.  For every kind of the table, every attribute
    name that one of the five policy sets mentions is in exactly one of the
    mergeable and the resolved sets; the identity-matching attributes and
    the substitute attributes are mergeable. *)
Theorem goKinds_mergeable_or_resolved (kindName : string) (info : rule.KindInfo) :
  goKinds !! kindName = Some info ->
  (forall k, k ∈ referencedAttrs info -> countSets (mergeOrResolve info) k = 1%nat) /\
  (forall k, k ∈ rule.MatchAttrs info -> inAttrs (rule.MergeableAttrs info) k = true) /\
  (forall k, inAttrs (rule.SubstituteAttrs info) k = true ->
     inAttrs (rule.MergeableAttrs info) k = true).
Proof. exact (kindPartitioned_all goKinds kindName info goKinds_all_partitioned). Qed.

Lemma goKinds_mergeable_or_resolved_witness :
  exists info, goKinds !! "go_library" = Some info /\
    countSets (mergeOrResolve info) "deps" = 1%nat /\
    countSets (mergeOrResolve info) "embed" = 1%nat /\
    inAttrs (rule.MergeableAttrs info) "importpath" = true.
Proof.
  destruct (goKinds !! "go_library") as [info|] eqn:Hinfo; [| by vm_compute in Hinfo].
  exists info. split; [done |].
  destruct (goKinds_mergeable_or_resolved "go_library" info Hinfo) as (Hone & Hmatch & Hsub).
  assert (info = default rule.zeroKindInfo (goKinds !! "go_library")) as Hdef
    by (by rewrite Hinfo).
  split; [| split].
  - apply Hone. rewrite Hdef. by_compute.
  - apply Hone. rewrite Hdef. by_compute.
  - apply Hmatch. rewrite Hdef. by_compute.
Defined.

(** In the kind alias, the attribute actual is required non-empty and
    mergeable: it is in two of the five policy sets, not in exactly one. *)
Lemma goKinds_alias_actual_in_two_sets :
  ~ (forall kindName info k,
       goKinds !! kindName = Some info ->
       k ∈ referencedAttrs info ->
       countSets (policySets info) k = 1%nat).
Proof.
  intros Hclaim.
  specialize (Hclaim "alias" (default rule.zeroKindInfo (goKinds !! "alias")) "actual").
  assert (countSets (policySets (default rule.zeroKindInfo (goKinds !! "alias"))) "actual"
          = 2%nat) as Htwo by (vm_compute; reflexivity).
  rewrite Hclaim in Htwo; [discriminate | vm_compute; reflexivity | by_compute].
Qed.

(** ** Several packages, none with the default name *)

Section Ambiguous.
Context `{RangeOrder}.
Variable protoFileInfo : string -> string -> FileInfo.
Variable IsEmpty : rule.Rule -> rule.KindInfo -> bool.
Variable protoKinds : gmap string rule.KindInfo.

Lemma selectPackage_no_match (dir rel : string) (m : gmap string Package) :
  (1 < size m)%nat ->
  (forall k pkg, m !! k = Some pkg -> goPackageName pkg <> Replace rel "/" "_") ->
  selectPackage dir rel m = (None, Some (multiplePackagesError dir)).
Proof.
  intros Hsize Hnone. rewrite (selectPackage_many _ _ _ Hsize).
  destruct (List.find _ _) as [p|] eqn:Hfind; [| done].
  apply find_some in Hfind as [Hin Hmatch].
  apply list_elem_of_In, elem_of_range_values in Hin as [k Hk].
  apply matchesDefault_true in Hmatch as [_ Heq].
  by destruct (Hnone k p Hk).
Qed.

(** C6. In the default mode, when the directory has more than one package
    and none has a guessed name equal to the default name: selection
    returns no package and the error, whose message starts with the
    directory; [buildPackages] logs the error and returns no package;
    [GenerateRules] generates no rule and returns the stale rules of
    [generateEmpty] as the empty rules. *)
Theorem GenerateRules_multiple_packages (args : GenerateArgs) :
  let pc := GetProtoConfig (Config_ args) in
  let g := newGenerator args in
  let packageMap := buildPackageMap protoFileInfo g pc (Dir args) in
  let defaultPackageName := mapBytes (replaceByte "/" "_") (Rel args) in
  let err := multiplePackagesError (Dir args) in
  Mode_ pc = DefaultMode ->
  (1 < size packageMap)%nat ->
  (forall k pkg, packageMap !! k = Some pkg ->
     ~ guessedExternalName pkg defaultPackageName) ->
  selectPackage (Dir args) (Rel args) packageMap = (None, Some err) /\
  HasPrefix err (Dir args) = true /\
  buildPackages protoFileInfo g pc (Dir args) = ([], [err]) /\
  GenerateRules protoFileInfo IsEmpty protoKinds args = (generateEmpty g, [], [err]).
Proof.
  intros pc g packageMap d err Hmode Hsize Hnone.
  assert (Hsel : selectPackage (Dir args) (Rel args) packageMap = (None, Some err)).
  { apply selectPackage_no_match; [done |].
    intros k pkg Hk Heq. apply (Hnone k pkg Hk).
    apply goPackageName_iff. by rewrite Heq, Replace_byte. }
  assert (Hbuild : buildPackages protoFileInfo g pc (Dir args) = ([], [err])).
  { unfold buildPackages. rewrite Hmode.
    change (rel g) with (Rel args). fold packageMap. by rewrite Hsel. }
  split; [exact Hsel |]. split; [apply HasPrefix_app |]. split; [exact Hbuild |].
  unfold GenerateRules. fold pc. rewrite Hmode. cbn [ShouldGenerateRules negb].
  fold g. rewrite Hbuild. reflexivity.
Qed.

End Ambiguous.

(** ** Example: two packages in foo/bar, none named after the directory *)

Definition twoPackagesInfo (dir name : string) : FileInfo :=
  {| FileName := name;
     PackageName := if String.eqb name "a.proto" then "p1" else "p2";
     FileOptions := [];
     FileImports := [] |}.

Definition twoPackagesArgs : GenerateArgs :=
  {| Config_ := plainConfig; Dir := "/repo/foo/bar"; Rel := "foo/bar";
     File := Some {| rule.Rules := [oldProto] |};
     RegularFiles := ["a.proto"; "b.proto"]; GenFiles := [] |}.

Lemma GenerateRules_multiple_packages_witness :
  GenerateRules (H := canonicalOrder) twoPackagesInfo (fun _ _ => false) ∅ twoPackagesArgs =
    ([rule.NewRule "proto_library" "old_proto"], [],
     ["/repo/foo/bar: directory contains multiple proto packages. Gazelle can only generate a proto_library for one package."]).
Proof.
  destruct (GenerateRules_multiple_packages (H := canonicalOrder) twoPackagesInfo
              (fun _ _ => false) ∅ twoPackagesArgs) as (_ & _ & _ & Hgen).
  - reflexivity.
  - vm_compute. lia.
  - intros k pkg Hk Hguess.
    apply (goPackageName_iff (H := canonicalOrder)) in Hguess.
    assert (Hin : pkg ∈ (map_to_list (buildPackageMap twoPackagesInfo
              (newGenerator twoPackagesArgs) (GetProtoConfig (Config_ twoPackagesArgs))
              (Dir twoPackagesArgs))).*2).
    { apply list_elem_of_fmap. exists (k, pkg). split; [reflexivity |].
      apply elem_of_map_to_list. exact Hk. }
    vm_compute in Hin.
    apply elem_of_cons in Hin as [-> | Hin]; [vm_compute in Hguess; discriminate |].
    apply list_elem_of_singleton in Hin as ->. vm_compute in Hguess. discriminate.
  - rewrite Hgen. reflexivity.
Defined.

(** ** Sources and imports of a generated rule *)

(** [l] is the sorted list of the set [X]: ascending in the byte-wise
    order of strings, without repetition, with the elements of [X]. *)
Definition sortedListOf (X : gset string) (l : list string) : Prop :=
  StronglySorted String.le l /\ NoDup l /\ forall x, x ∈ l <-> x ∈ X.

Lemma sortedListOf_unique (X : gset string) (l1 l2 : list string) :
  sortedListOf X l1 -> sortedListOf X l2 -> l1 = l2.
Proof.
  intros (Hs1 & Hd1 & Hx1) (Hs2 & Hd2 & Hx2).
  apply (StronglySorted_unique String.le); [done | done |].
  apply NoDup_Permutation; [done | done |].
  intros x. by rewrite Hx1, Hx2.
Qed.

Lemma sortedListOf_set (X : gset string) (l : list string) :
  sortedListOf X l -> list_to_set l = X.
Proof.
  intros (_ & _ & Hx). apply set_eq. intros x.
  by rewrite elem_of_list_to_set.
Qed.

Lemma sortedListOf_nil (X : gset string) (l : list string) :
  sortedListOf X l -> (l = [] <-> X = ∅).
Proof.
  intros (_ & _ & Hx). split.
  - intros ->. apply set_eq. intros x. rewrite <- Hx.
    split; [by intros ?%elem_of_nil | by intros ?%elem_of_empty].
  - intros ->. destruct l as [|x l]; [done |].
    destruct (not_elem_of_empty (C := gset string) x). apply Hx. left.
Qed.

Lemma foldl_SetPrivateAttr_attrs (l : list (string * string)) (r : rule.Rule) :
  rule.attrs (foldl (fun r kv => rule.SetPrivateAttr r kv.1 (rule.StringValue kv.2)) r l)
  = rule.attrs r.
Proof. revert r. induction l as [|kv l IH]; intros r; simpl; [done | by rewrite IH]. Qed.

Lemma foldl_SetPrivateAttr_other (l : list (string * string)) (r : rule.Rule) (k : string) :
  k ∉ l.*1 ->
  rule.private (foldl (fun r kv => rule.SetPrivateAttr r kv.1 (rule.StringValue kv.2)) r l) !! k
  = rule.private r !! k.
Proof.
  revert r. induction l as [|kv l IH]; intros r Hk; simpl; [done |].
  rewrite fmap_cons in Hk. apply not_elem_of_cons in Hk as [Hne Hk].
  rewrite (IH _ Hk). simpl. by rewrite lookup_insert_ne.
Qed.

Section Synthesis.
Context `{RangeOrder}.

Lemma sortStrings_range_keys (X : gset string) :
  sortedListOf X (sortStrings (range_keys X)).
Proof.
  unfold sortedListOf, sortStrings. split; [| split].
  - apply (StronglySorted_merge_sort String.le).
  - rewrite merge_sort_Permutation, range_keys_perm. apply NoDup_elements.
  - intros x. rewrite merge_sort_Permutation, range_keys_perm. apply elem_of_elements.
Qed.

Lemma not_elem_of_range_keys_of_map {A} (m : gmap string A) (k : string) :
  m !! k = None -> k ∉ (range_map m).*1.
Proof.
  intros Hk Hin. apply list_elem_of_fmap in Hin as [[k' v] [-> Hin]].
  apply elem_of_range_map in Hin. simpl in Hk. congruence.
Qed.

Lemma generateProto_srcs (g : generator) (pc : ProtoConfig) (pkg : Package) :
  rule.Attr (generateProto g pc pkg) "srcs" =
    match sortStrings (range_keys (Files pkg)) with
    | [] => None
    | srcs => Some (rule.StringList srcs)
    end.
Proof.
  unfold generateProto, rule.Attr.
  set (name := if decide _ then _ else _).
  set (srcs := sortStrings (range_keys (Files pkg))).
  assert (Hvis : forall r e, rule.attrs (if shouldSetVisibility g
                    then rule.SetAttr r "visibility" e else r) !! "srcs"
                  = rule.attrs r !! "srcs").
  { intros r e. destruct (shouldSetVisibility g); [| done]. simpl.
    by rewrite lookup_insert_ne. }
  rewrite Hvis, foldl_SetPrivateAttr_attrs. simpl.
  destruct srcs as [|src srcs]; simpl; [done |].
  by rewrite lookup_insert_eq.
Qed.

Lemma generateProto_imports (g : generator) (pc : ProtoConfig) (pkg : Package) :
  Options pkg !! GazelleImportsKey = None ->
  rule.PrivateAttr (generateProto g pc pkg) GazelleImportsKey =
    Some (rule.StringsValue (sortStrings (range_keys (Imports pkg)))).
Proof.
  intros Hopt. unfold generateProto, rule.PrivateAttr.
  set (name := if decide _ then _ else _).
  assert (Hvis : forall r e, rule.private (if shouldSetVisibility g
                    then rule.SetAttr r "visibility" e else r) = rule.private r).
  { intros r e. by destruct (shouldSetVisibility g). }
  rewrite Hvis, foldl_SetPrivateAttr_other
    by (by apply not_elem_of_range_keys_of_map).
  simpl. by rewrite lookup_insert_eq.
Qed.

(** C5, as the code has it.  For a package none of whose options is named
    by the key of the imports: the sources attribute of the generated rule
    is the sorted list of the member files, and is absent when there is
    none; the private imports attribute is the sorted list of the imports,
    also when there is none; the sets of the names read back from the rule
    are the files and the imports of the package. *)
Theorem generateProto_sources_imports (g : generator) (pc : ProtoConfig) (pkg : Package) :
  Options pkg !! GazelleImportsKey = None ->
  let r := generateProto g pc pkg in
  exists srcs imports,
    sortedListOf (Files pkg) srcs /\
    sortedListOf (Imports pkg) imports /\
    rule.Attr r "srcs" =
      (if decide (Files pkg = ∅) then None else Some (rule.StringList srcs)) /\
    rule.PrivateAttr r GazelleImportsKey = Some (rule.StringsValue imports) /\
    list_to_set (rule.AttrStrings r "srcs") = Files pkg /\
    list_to_set imports = Imports pkg.
Proof.
  intros Hopt r.
  exists (sortStrings (range_keys (Files pkg))), (sortStrings (range_keys (Imports pkg))).
  pose proof (sortStrings_range_keys (Files pkg)) as Hsrcs.
  pose proof (sortStrings_range_keys (Imports pkg)) as Himports.
  assert (Hattr : rule.Attr r "srcs" =
            (if decide (Files pkg = ∅) then None
             else Some (rule.StringList (sortStrings (range_keys (Files pkg)))))).
  { subst r. rewrite generateProto_srcs.
    pose proof (sortedListOf_nil _ _ Hsrcs) as Hnil.
    destruct (sortStrings (range_keys (Files pkg))) as [|src srcs].
    - rewrite decide_True; [done | by apply Hnil].
    - rewrite decide_False; [done |]. intros Hempty. by apply Hnil in Hempty. }
  split; [done |]. split; [done |]. split; [done |].
  split; [by apply generateProto_imports |].
  split; [| by apply sortedListOf_set].
  unfold rule.AttrStrings. unfold rule.Attr in Hattr. rewrite Hattr.
  destruct (decide (Files pkg = ∅)) as [-> | Hne]; [done |].
  by apply sortedListOf_set.
Qed.

End Synthesis.

(** ** Example: a package with two files and two imports *)

Definition twoFilesPackage : Package :=
  {| Name := "foo.bar"; Files := {["b.proto"; "a.proto"]};
     Imports := {["google/protobuf/any.proto"; "foo/baz/baz.proto"]};
     Options := {["java_package" := "com.example.foo"]} |}.

Definition overwritingPackage : Package :=
  {| Name := "foo.bar"; Files := {["a.proto"]};
     Imports := {["foo/baz/baz.proto"]};
     Options := {[GazelleImportsKey := "x"]} |}.

Lemma generateProto_sources_imports_witness :
  let g := generatorWith [] [] in
  let pc := GetProtoConfig plainConfig in
  let r := generateProto (H := canonicalOrder) g pc twoFilesPackage in
  let r0 := generateProto (H := canonicalOrder) g pc (newPackage "foo.bar") in
  (exists srcs imports,
     sortedListOf (Files twoFilesPackage) srcs /\
     sortedListOf (Imports twoFilesPackage) imports /\
     rule.Attr r "srcs" =
       (if decide (Files twoFilesPackage = ∅) then None else Some (rule.StringList srcs)) /\
     rule.PrivateAttr r GazelleImportsKey = Some (rule.StringsValue imports) /\
     list_to_set (rule.AttrStrings r "srcs") = Files twoFilesPackage /\
     list_to_set imports = Imports twoFilesPackage) /\
  rule.Attr r "srcs" = Some (rule.StringList ["a.proto"; "b.proto"]) /\
  rule.PrivateAttr r GazelleImportsKey =
    Some (rule.StringsValue ["foo/baz/baz.proto"; "google/protobuf/any.proto"]) /\
  rule.Attr r0 "srcs" = None /\
  rule.PrivateAttr r0 GazelleImportsKey = Some (rule.StringsValue []).
Proof.
  intros g pc r r0. split; [| split; [| split; [| split]]].
  - apply (generateProto_sources_imports (H := canonicalOrder)). vm_compute. reflexivity.
  - vm_compute. reflexivity.
  - vm_compute. reflexivity.
  - destruct (generateProto_sources_imports (H := canonicalOrder) g pc (newPackage "foo.bar"))
      as (srcs & imports & _ & _ & Hattr & _); [reflexivity |].
    fold r0 in Hattr. rewrite Hattr. by rewrite decide_True.
  - destruct (generateProto_sources_imports (H := canonicalOrder) g pc (newPackage "foo.bar"))
      as (srcs & imports & _ & Himports & _ & Hpriv & _); [reflexivity |].
    fold r0 in Hpriv. rewrite Hpriv. do 2 f_equal.
    apply (sortedListOf_nil _ _ Himports). reflexivity.
Defined.

(** An option named by the key of the imports replaces the imports in the
    private attributes of the generated rule. *)
Lemma generateProto_imports_overwritten :
  let r := generateProto (H := canonicalOrder) (generatorWith [] [])
             (GetProtoConfig plainConfig) overwritingPackage in
  Imports overwritingPackage = {["foo/baz/baz.proto"]} /\
  rule.PrivateAttr r GazelleImportsKey = Some (rule.StringValue "x") /\
  rule.PrivateAttr r GazelleImportsKey <> Some (rule.StringsValue ["foo/baz/baz.proto"]).
Proof.
  intros r. split; [reflexivity |]. split; [vm_compute; reflexivity |].
  vm_compute. discriminate.
Qed.

(** ** Visibility *)

(** The segments of a slash-separated path: [strings.Split(s, "/")]. *)
Fixpoint segments (s : string) : list string :=
  match s with
  | EmptyString => [EmptyString]
  | String a s' =>
      if Ascii.eqb a "/" then EmptyString :: segments s'
      else match segments s' with
           | seg :: rest => String a seg :: rest
           | [] => [String a EmptyString]
           end
  end.

Lemma segments_nonempty (s : string) : segments s <> [].
Proof.
  induction s as [|a s IH]; simpl; [done |].
  destruct (Ascii.eqb a "/"); [done |]. by destruct (segments s).
Qed.

Lemma segments_first (seg rest : string) :
  "/"%char ∉ bytes seg ->
  segments (seg +:+ String "/" rest) = seg :: segments rest.
Proof.
  induction seg as [|a seg IH]; intros Hn; unfold_app; simpl; [done |].
  simpl in Hn. apply not_elem_of_cons in Hn as [Hne Hn].
  destruct (Ascii.eqb_spec a "/"); [congruence |].
  by rewrite (IH Hn).
Qed.

Lemma removelast_cons {A} (x : A) (l : list A) :
  l <> [] -> removelast (x :: l) = x :: removelast l.
Proof. by destruct l. Qed.

Lemma elem_of_removelast_tail {A} (x : A) (l : list A) :
  x ∈ removelast (tail l) -> x ∈ removelast l.
Proof.
  destruct l as [|y [|z l]]; simpl; [done | done |].
  intros Hin. by right.
Qed.

Lemma elem_of_removelast {A} (x : A) (l : list A) : x ∈ removelast l -> x ∈ l.
Proof.
  induction l as [|y l IH]; [done |].
  destruct l as [|z l]; [by intros ?%elem_of_nil |].
  rewrite removelast_cons by done.
  intros [-> | Hin]%elem_of_cons; [left | right; by apply IH].
Qed.

Lemma LastIndex_lower (s sub : string) : -1 <= LastIndex s sub.
Proof.
  induction s as [|a s IH]; simpl.
  - destruct (String.eqb sub ""); lia.
  - destruct (Z.leb_spec 0 (LastIndex s sub)); [lia |].
    destruct (HasPrefix _ _); lia.
Qed.

(** A path that starts with [internal/] has the first segment [internal]
    and a further segment. *)
Lemma HasPrefix_internal_segments (t : string) :
  HasPrefix t "internal/" = true ->
  exists rest, segments t = "internal" :: rest /\ rest <> [].
Proof.
  intros Hp. apply HasPrefix_inv in Hp as [u ->].
  exists (segments u). split; [| apply segments_nonempty].
  change ("internal/" +:+ u) with ("internal" +:+ String "/" u).
  apply segments_first. by_compute.
Qed.

(** An occurrence of [/internal/] is a segment [internal] that is neither
    the first nor the last. *)
Lemma LastIndex_internal_segments (t : string) :
  0 <= LastIndex t "/internal/" ->
  "internal" ∈ removelast (tail (segments t)).
Proof.
  induction t as [|a t IH]; [done |].
  cbn [LastIndex].
  destruct (Z.leb_spec 0 (LastIndex t "/internal/")) as [Hi | Hi].
  - intros _. specialize (IH Hi). simpl.
    destruct (Ascii.eqb a "/"); simpl.
    + by apply elem_of_removelast_tail.
    + by destruct (segments t).
  - destruct (HasPrefix (String a t) "/internal/") eqn:Hp; [| lia].
    intros _. cbn [HasPrefix] in Hp. apply andb_true_iff in Hp as [Ha Hp].
    apply Ascii.eqb_eq in Ha as ->.
    change (HasPrefix t "internal/" = true) in Hp.
    destruct (HasPrefix_internal_segments t Hp) as (rest & Hseg & Hrest).
    simpl. rewrite Hseg, removelast_cons by done. left.
Qed.

Lemma LastIndex_after_slash (post : string) :
  "internal" ∉ removelast (segments post) ->
  LastIndex (String "/" post) "/internal/" = -1.
Proof.
  intros Hn. cbn [LastIndex].
  destruct (Z.leb_spec 0 (LastIndex post "/internal/")) as [Hi | Hi].
  - destruct Hn. by apply elem_of_removelast_tail, LastIndex_internal_segments.
  - destruct (HasPrefix (String "/" post) "/internal/") eqn:Hp; [| done].
    destruct Hn. change (HasPrefix post "internal/" = true) in Hp.
    destruct (HasPrefix_internal_segments post Hp) as (rest & -> & Hrest).
    rewrite removelast_cons by done. left.
Qed.

Lemma LastIndex_cons_other (a : ascii) (s : string) :
  a <> "/"%char ->
  LastIndex s "/internal/" = -1 ->
  LastIndex (String a s) "/internal/" = -1.
Proof.
  intros Ha Hs. cbn [LastIndex HasPrefix]. rewrite Hs. simpl.
  by destruct (Ascii.eqb_spec a "/").
Qed.

Lemma LastIndex_internal_post (post : string) :
  "internal" ∉ removelast (segments post) ->
  LastIndex ("internal/" +:+ post) "/internal/" = -1.
Proof.
  intros Hn.
  change ("internal/" +:+ post) with ("internal" +:+ String "/" post).
  unfold_app.
  repeat (apply LastIndex_cons_other; [discriminate |]).
  by apply LastIndex_after_slash.
Qed.

Lemma LastIndex_at (pre t sub : string) (a : ascii) :
  HasPrefix (String a t) sub = true ->
  LastIndex t sub = -1 ->
  LastIndex (pre +:+ String a t) sub = Z.of_nat (String.length pre).
Proof.
  intros Hp Ht. induction pre as [|b pre IH]; unfold_app.
  - cbn [LastIndex]. rewrite Ht, Hp. done.
  - cbn [LastIndex]. rewrite IH.
    destruct (Z.leb_spec 0 (Z.of_nat (String.length pre))); simpl; lia.
Qed.

Lemma checkInternalVisibility_none (rel visibility : string) :
  "internal" ∉ segments rel -> checkInternalVisibility rel visibility = visibility.
Proof.
  intros Hn. unfold checkInternalVisibility.
  destruct (Z.leb_spec 0 (LastIndex rel "/internal/")) as [Hi | Hi].
  - destruct Hn. by apply elem_of_removelast, elem_of_removelast_tail,
      LastIndex_internal_segments.
  - destruct (HasPrefix rel "internal/") eqn:Hp; [| done].
    destruct Hn. destruct (HasPrefix_internal_segments rel Hp) as (rest & -> & _). left.
Qed.

Lemma checkInternalVisibility_inner (pre post visibility : string) :
  "internal" ∉ removelast (segments post) ->
  checkInternalVisibility (pre +:+ "/internal/" +:+ post) visibility =
    "//" +:+ pre +:+ ":__subpackages__".
Proof.
  intros Hn. unfold checkInternalVisibility.
  change ("/internal/" +:+ post) with (String "/" ("internal/" +:+ post)).
  rewrite (LastIndex_at pre ("internal/" +:+ post) "/internal/" "/").
  - destruct (Z.leb_spec 0 (Z.of_nat (String.length pre))); [| lia].
    by rewrite Nat2Z.id, sliceTo_app.
  - apply (HasPrefix_app "/internal/" post).
  - by apply LastIndex_internal_post.
Qed.

Lemma checkInternalVisibility_first (post visibility : string) :
  "internal" ∉ removelast (segments post) ->
  checkInternalVisibility ("internal/" +:+ post) visibility = "//:__subpackages__".
Proof.
  intros Hn. unfold checkInternalVisibility.
  rewrite (LastIndex_internal_post _ Hn).
  pose proof (HasPrefix_app "internal/" post) as Hp.
  destruct (0 <=? -1) eqn:Hneg; [done |].
  by rewrite Hp.
Qed.

Section Visibility.
Context `{RangeOrder}.

Lemma generateProto_visibility (g : generator) (pc : ProtoConfig) (pkg : Package) :
  rule.Attr (generateProto g pc pkg) "visibility" =
    if shouldSetVisibility g
    then Some (rule.StringList [checkInternalVisibility (rel g) "//visibility:public"])
    else None.
Proof.
  unfold generateProto, rule.Attr.
  set (name := if decide _ then _ else _).
  destruct (shouldSetVisibility g).
  - simpl. by rewrite lookup_insert_eq.
  - rewrite foldl_SetPrivateAttr_attrs. simpl.
    destruct (sortStrings (range_keys (Files pkg))); simpl; [done |].
    by rewrite lookup_insert_ne.
Qed.

(** C4, as the code has it.  When the generator sets the visibility, its
    value is that of [checkInternalVisibility] at the relative path: the
    public visibility when no segment of the path is [internal]; the
    subpackages of the part of the path before [/internal/] when no later
    segment but possibly the last one is [internal]; the subpackages of the
    repository when the path starts with [internal/] and no later segment
    but possibly the last one is [internal]. *)
Theorem generateProto_visibility_internal (g : generator) (pc : ProtoConfig) (pkg : Package) :
  shouldSetVisibility g = true ->
  let public := "//visibility:public" in
  let vis := checkInternalVisibility (rel g) public in
  rule.Attr (generateProto g pc pkg) "visibility" = Some (rule.StringList [vis]) /\
  ("internal" ∉ segments (rel g) -> vis = public) /\
  (forall pre post,
     rel g = pre +:+ "/internal/" +:+ post ->
     "internal" ∉ removelast (segments post) ->
     vis = "//" +:+ pre +:+ ":__subpackages__") /\
  (forall post,
     rel g = "internal/" +:+ post ->
     "internal" ∉ removelast (segments post) ->
     vis = "//:__subpackages__").
Proof.
  intros Hset public vis. subst vis.
  split; [by rewrite generateProto_visibility, Hset |].
  split; [apply checkInternalVisibility_none |].
  split.
  - intros pre post -> Hn. by apply checkInternalVisibility_inner.
  - intros post -> Hn. by apply checkInternalVisibility_first.
Qed.

End Visibility.

(** ** Examples: the paths a/b/internal/c, internal/x and foo/bar *)

Definition generatorAt (rel : string) : generator :=
  {| c := plainConfig; file := None; rel := rel;
     shouldSetVisibility := true; regularProtoFiles := []; genProtoFiles := [] |}.

Lemma generateProto_visibility_internal_witness :
  checkInternalVisibility "a/b/internal/c" "//visibility:public" = "//a/b:__subpackages__" /\
  checkInternalVisibility "internal/x" "//visibility:public" = "//:__subpackages__" /\
  checkInternalVisibility "foo/bar" "//visibility:public" = "//visibility:public" /\
  rule.Attr (generateProto (H := canonicalOrder) (generatorAt "a/b/internal/c")
               (GetProtoConfig plainConfig) p1) "visibility"
    = Some (rule.StringList ["//a/b:__subpackages__"]).
Proof.
  destruct (generateProto_visibility_internal (H := canonicalOrder)
              (generatorAt "a/b/internal/c") (GetProtoConfig plainConfig) p1 eq_refl)
    as (Hattr & _ & Hinner & _).
  destruct (generateProto_visibility_internal (H := canonicalOrder)
              (generatorAt "internal/x") (GetProtoConfig plainConfig) p1 eq_refl)
    as (_ & _ & _ & Hfirst).
  destruct (generateProto_visibility_internal (H := canonicalOrder)
              (generatorAt "foo/bar") (GetProtoConfig plainConfig) p1 eq_refl)
    as (_ & Hnone & _ & _).
  assert (Hab : checkInternalVisibility "a/b/internal/c" "//visibility:public"
                = "//a/b:__subpackages__").
  { apply (Hinner "a/b" "c"); [reflexivity | by_compute]. }
  split; [exact Hab |].
  split; [apply (Hfirst "x"); [reflexivity | by_compute] |].
  split; [apply Hnone; by_compute |].
  rewrite Hattr. cbn [rel generatorAt]. by rewrite Hab.
Defined.

(** Two paths with a segment [internal] on which the code does not give
    what C4 states: in a/internal the segment is the last one and the
    visibility stays public; in internal/x/internal/y the first segment is
    [internal] and the visibility is that of the subpackages of
    internal/x, not of the repository. *)
Lemma checkInternalVisibility_last_or_repeated_segment :
  ("internal" ∈ segments "a/internal" /\
   checkInternalVisibility "a/internal" "//visibility:public" = "//visibility:public") /\
  (head (segments "internal/x/internal/y") = Some "internal" /\
   checkInternalVisibility "internal/x/internal/y" "//visibility:public"
     = "//internal/x:__subpackages__").
Proof.
  split; split; try reflexivity. by_compute.
Qed.

(** ** RuleName *)

(** The bytes of the UTF-8 encoding of U+00E9 (e with acute accent). *)
Definition eAcute : string := String (ascii_of_nat 195) (String (ascii_of_nat 169) "").

(** The byte 0xA9, the second byte of that encoding. *)
Definition byteA9 : string := String (ascii_of_nat 169) "".

(** A byte is an identifier character. *)
Definition isIdentByte (a : ascii) : bool := negb (notIdent (rune a)).

(** A string of bytes below 0x80. *)
Definition isASCII (s : string) : Prop := Forall (fun a => utf8.byte a < 128) (bytes s).

(** The index of the last byte before index [i] whose value satisfies [f],
    or [-1]. *)
Fixpoint lastByteBefore (f : Z -> bool) (s : string) (i : nat) : Z :=
  match i with
  | O => -1
  | S i' =>
      match String.get i' s with
      | Some b => if f (utf8.byte b) then Z.of_nat i' else lastByteBefore f s i'
      | None => lastByteBefore f s i'
      end
  end.

Lemma length_sliceTo (i : nat) (s : string) :
  (i <= String.length s)%nat -> String.length (sliceTo i s) = i.
Proof.
  revert s. induction i as [|i IH]; intros s Hi; [done |].
  destruct s as [|a s]; simpl in *; [lia |]. rewrite IH; [done | lia].
Qed.

Lemma get_sliceTo (i j : nat) (s : string) :
  (j < i)%nat -> String.get j (sliceTo i s) = String.get j s.
Proof.
  revert j s. induction i as [|i IH]; intros j s Hj; [lia |].
  destruct s as [|a s]; [done |]. cbn [sliceTo].
  destruct j as [|j]; [done |]. simpl. apply IH. lia.
Qed.

Lemma get_bytes (j : nat) (s : string) : String.get j s = bytes s !! j.
Proof.
  revert j. induction s as [|a s IH]; intros j; [by destruct j |].
  destruct j as [|j]; [done |]. simpl. apply IH.
Qed.

(** The last rune of a string that ends in a byte below 0x80 is that byte. *)
Lemma DecodeLastRuneInString_ascii (s : string) (b : ascii) :
  String.get (String.length s - 1) s = Some b ->
  utf8.byte b < 128 ->
  utf8.DecodeLastRuneInString s = (utf8.byte b, 1%nat).
Proof.
  intros Hget Hb. unfold utf8.DecodeLastRuneInString. rewrite Hget.
  unfold utf8.RuneSelf. by destruct (Z.ltb_spec (utf8.byte b) 128); [| lia].
Qed.

Lemma lastIndexFunc_ascii (f : Z -> bool) (s : string) (fuel i : nat) :
  isASCII s ->
  (i <= String.length s)%nat -> (i <= fuel)%nat ->
  lastIndexFunc fuel s f i = lastByteBefore f s i.
Proof.
  intros Hascii. revert i. induction fuel as [|fuel IH]; intros i Hi Hfuel.
  - by replace i with 0%nat by lia.
  - destruct i as [|i]; [done |]. cbn [lastIndexFunc Nat.eqb lastByteBefore].
    destruct (String.get i s) as [b|] eqn:Hget.
    + assert (Hb : utf8.byte b < 128).
      { rewrite get_bytes in Hget. unfold isASCII in Hascii.
        rewrite Forall_lookup in Hascii. by apply (Hascii i b). }
      rewrite (DecodeLastRuneInString_ascii _ b).
      * replace (S i - 1)%nat with i by lia.
        destruct (f (utf8.byte b)); [done |]. apply IH; lia.
      * rewrite length_sliceTo by done. replace (S i - 1)%nat with i by lia.
        rewrite get_sliceTo by lia. done.
      * done.
    + exfalso. rewrite get_bytes in Hget. apply lookup_ge_None in Hget.
      assert (length (bytes s) = String.length s) as Hlen.
      { clear. induction s as [|a s IH]; simpl; [done | by rewrite IH]. }
      lia.
Qed.

Lemma lastByteBefore_none (f : Z -> bool) (s : string) (i : nat) :
  Forall (fun a => f (utf8.byte a) = false) (bytes s) ->
  lastByteBefore f s i = -1.
Proof.
  intros Hall. induction i as [|i IH]; [done |]. simpl.
  destruct (String.get i s) as [b|] eqn:Hget; [| done].
  rewrite get_bytes in Hget. rewrite Forall_lookup in Hall.
  by rewrite (Hall i b Hget).
Qed.

Lemma length_bytes (s : string) : length (bytes s) = String.length s.
Proof. induction s as [|a s IH]; simpl; [done | by rewrite IH]. Qed.

Lemma lastByteBefore_last (f : Z -> bool) (pre t : string) (c : ascii) (n : nat) :
  f (utf8.byte c) = true ->
  Forall (fun a => f (utf8.byte a) = false) (bytes t) ->
  (n <= String.length t)%nat ->
  lastByteBefore f (pre +:+ String c t) (String.length pre + 1 + n)
    = Z.of_nat (String.length pre).
Proof.
  intros Hc Ht. induction n as [|n IH]; intros Hn.
  - replace (String.length pre + 1 + 0)%nat with (S (String.length pre)) by lia.
    simpl. rewrite get_bytes, bytes_app. simpl.
    rewrite lookup_app_r by (rewrite length_bytes; lia).
    rewrite length_bytes, Nat.sub_diag. simpl. by rewrite Hc.
  - replace (String.length pre + 1 + S n)%nat with (S (String.length pre + 1 + n)) by lia.
    simpl. rewrite get_bytes, bytes_app. simpl.
    rewrite lookup_app_r by (rewrite length_bytes; lia).
    rewrite length_bytes.
    replace (String.length pre + 1 + n - String.length pre)%nat with (S n) by lia.
    simpl. destruct (bytes t !! n) as [b|] eqn:Hb.
    + rewrite Forall_lookup in Ht. rewrite (Ht n b Hb). apply IH. lia.
    + apply IH. lia.
Qed.

(** X1. Trimming a name of bytes below 0x80: what follows the last byte that
    is not an identifier character, and the whole name when there is no
    such byte. *)
Theorem trimToIdent_ascii (name : string) :
  isASCII name ->
  (forall pre c t, name = pre +:+ String c t ->
     isIdentByte c = false -> Forall (fun a => isIdentByte a = true) (bytes t) ->
     trimToIdent name = t) /\
  (Forall (fun a => isIdentByte a = true) (bytes name) -> trimToIdent name = name).
Proof.
  intros Hascii. unfold trimToIdent, LastIndexFunc.
  rewrite (lastIndexFunc_ascii notIdent name _ _ Hascii) by done.
  assert (Hconv : forall u, Forall (fun a => isIdentByte a = true) (bytes u) ->
            Forall (fun a => notIdent (utf8.byte a) = false) (bytes u)).
  { intros u Hu. eapply Forall_impl; [exact Hu |]. intros a Ha.
    unfold isIdentByte, rune in Ha. by apply negb_true_iff in Ha. }
  split.
  - intros pre c t -> Hc Ht.
    unfold isIdentByte, rune in Hc. apply negb_false_iff in Hc.
    rewrite length_app_string. cbn [String.length].
    replace (String.length pre + S (String.length t))%nat
      with (String.length pre + 1 + String.length t)%nat by lia.
    rewrite (lastByteBefore_last notIdent pre t c) by (try done; by apply Hconv).
    destruct (Z.leb_spec 0 (Z.of_nat (String.length pre))); [| lia].
    apply sliceFrom_after.
  - intros Hall. by rewrite lastByteBefore_none by (by apply Hconv).
Qed.

(** The base of the rule name is never empty. *)
Lemma RuleName_base_nonempty (base : string) (names : list string) :
  base <> "" -> RuleName_base base names <> "".
Proof.
  intros Hbase. induction names as [|name names IH]; simpl; [done |].
  destruct (String.eqb_spec (trimToIdent name) ""); simpl; [done | done].
Qed.

(** X2. The rule name is a non-empty base followed by [_proto]; the base is
    the first of the trimmed names that is not empty, and [root] when all
    are empty. *)
Theorem RuleName_first_nonempty (names : list string) :
  let trimmed := List.filter (fun n => negb (String.eqb n "")) (trimToIdent <$> names) in
  RuleName names = default "root" (head trimmed) +:+ "_proto" /\
  default "root" (head trimmed) <> "".
Proof.
  simpl. unfold RuleName.
  assert (Hbase : RuleName_base "root" names =
    default "root" (head (List.filter (fun n => negb (String.eqb n ""))
                            (trimToIdent <$> names)))).
  { induction names as [|name names IH]; simpl; [done |].
    by destruct (negb (String.eqb (trimToIdent name) "")). }
  rewrite <- Hbase. split; [done |]. by apply RuleName_base_nonempty.
Qed.

(** C2 fails on the code for a name with a rune of several bytes.  In the
    name caf followed by U+00E9 the last rune that is not an identifier character
    starts at byte 3 and has two bytes; the code keeps what follows byte 3,
    which is the second byte of the rune: the trimmed name is the byte
    0xA9, not the empty string, and it is not an identifier character.  So
    for the names U+00E9 and pkg the rule name is that byte followed by
    [_proto], where trimming to the text after the last non-identifier
    character gives pkg_proto. *)
Theorem RuleName_multibyte_rune :
  LastIndexFunc ("caf" +:+ eAcute) notIdent = 3 /\
  trimToIdent ("caf" +:+ eAcute) = byteA9 /\
  trimToIdent eAcute = byteA9 /\
  forallb isIdentByte (list_ascii_of_string byteA9) = false /\
  RuleName [eAcute; "pkg"] = byteA9 +:+ "_proto" /\
  RuleName [""; "pkg"] = "pkg_proto" /\
  RuleName [""; "my/pkg.ext"; ""] = "ext_proto".
Proof. repeat split. Qed.

(** ** Further properties of the generator *)

(** The order of rules by name that [sort.SliceStable] establishes. *)
Definition byName (r1 r2 : rule.Rule) : Prop :=
  String.le (rule.Name r1) (rule.Name r2).

Lemma ltb_le (s1 s2 : string) : String.ltb s1 s2 = true -> String.le s1 s2.
Proof.
  unfold String.ltb, String.le, String.leb.
  by destruct (String.compare s1 s2).
Qed.

Lemma not_ltb_le (s1 s2 : string) : String.ltb s1 s2 = false -> String.le s2 s1.
Proof.
  unfold String.ltb, String.le, String.leb.
  rewrite (String.compare_antisym s1 s2).
  by destruct (String.compare s2 s1).
Qed.

Lemma insertByName_perm (r : rule.Rule) (l : list rule.Rule) :
  insertByName r l ≡ₚ r :: l.
Proof.
  induction l as [|r' l IH]; simpl; [done |].
  destruct (String.ltb (rule.Name r') (rule.Name r)); [| done].
  rewrite IH. apply Permutation_swap.
Qed.

Lemma insertByName_sorted (r : rule.Rule) (l : list rule.Rule) :
  Sorted byName l -> Sorted byName (insertByName r l).
Proof.
  induction l as [|r' l IH]; intros Hl; simpl.
  - by repeat constructor.
  - destruct (String.ltb (rule.Name r') (rule.Name r)) eqn:Hlt.
    + apply Sorted_inv in Hl as [Hl Hhd]. constructor; [by apply IH |].
      destruct l as [|r'' l]; simpl.
      * constructor. by apply ltb_le.
      * destruct (String.ltb (rule.Name r'') (rule.Name r)).
        -- constructor. by apply HdRel_inv in Hhd.
        -- constructor. by apply ltb_le.
    + constructor; [done |]. constructor. by apply not_ltb_le.
Qed.

(** The rules after [sort.SliceStable] are the same rules, in ascending
    order of their names. *)
Theorem sortStableByName_sorted (l : list rule.Rule) :
  Sorted byName (sortStableByName l) /\ sortStableByName l ≡ₚ l.
Proof.
  unfold sortStableByName. induction l as [|r l [IHs IHp]]; simpl.
  - split; [constructor | done].
  - split; [by apply insertByName_sorted |].
    by rewrite insertByName_perm, IHp.
Qed.

(** Whether the file has a package rule with a default visibility. *)
Lemma hasDefaultVisibility_true (f : option rule.File) :
  hasDefaultVisibility f = true <->
  exists file r, f = Some file /\ r ∈ rule.Rules file /\
    rule.Kind r = "package" /\ is_Some (rule.Attr r "default_visibility").
Proof.
  destruct f as [file|]; simpl.
  - rewrite existsb_exists. split.
    + intros (r & Hin & [Hk Ha]%andb_true_iff).
      exists file, r. split; [done |]. split; [by apply list_elem_of_In |].
      split; [by apply String.eqb_eq | by apply bool_decide_eq_true in Ha].
    + intros (file' & r & [= <-] & Hin & Hk & Ha). exists r.
      split; [by apply list_elem_of_In |]. apply andb_true_iff.
      split; [by apply String.eqb_eq | by apply bool_decide_eq_true].
  - split; [done |]. by intros (file & r & ? & _).
Qed.

Section MoreSynthesis.
Context `{RangeOrder}.


(** The kind and the name of the generated rule: the mapped kind, and the
    rule name derived from the guessed name of the package, the Go prefix
    and the relative path in the default mode, and from the value of the
    grouping option, the package name and the relative path otherwise. *)
Lemma generateProto_kind_name (g : generator) (pc : ProtoConfig) (pkg : Package) :
  rule.Kind (generateProto g pc pkg) = MapKind (c g) "proto_library" /\
  rule.Name (generateProto g pc pkg) =
    if decide (Mode_ pc = DefaultMode)
    then RuleName [goPackageName pkg; GoPrefix pc; rel g]
    else RuleName [Options pkg !!! groupOption pc; Name pkg; rel g].
Proof.
  unfold generateProto.
  set (name := if decide _ then _ else _).
  set (r0 := rule.SetPrivateAttr _ GazelleImportsKey _).
  assert (Hfold : forall (l : list (string * string)) r,
    rule.kind (foldl (fun r kv => rule.SetPrivateAttr r kv.1 (rule.StringValue kv.2)) r l)
      = rule.kind r /\
    rule.name (foldl (fun r kv => rule.SetPrivateAttr r kv.1 (rule.StringValue kv.2)) r l)
      = rule.name r).
  { induction l as [|kv l IH]; intros r; simpl; [done |]. by rewrite !(proj1 (IH _)), !(proj2 (IH _)). }
  destruct (Hfold (range_map (Options pkg)) r0) as [Hk Hn].
  unfold rule.Kind, rule.Name.
  destruct (shouldSetVisibility g); simpl; rewrite ?Hk, ?Hn; subst r0; simpl;
    by destruct (0 <? length _)%nat.
Qed.

End MoreSynthesis.

(** X6. Every rule that [generateEmpty] returns is the empty rule for an
    existing rule of the managed kind none of whose listed sources is a
    known file: a rule of another kind, or with a known source, never
    gives one. *)
Theorem generateEmpty_only_stale (g : generator) (e : rule.Rule) :
  e ∈ generateEmpty g ->
  exists f r, file g = Some f /\ r ∈ rule.Rules f /\
    rule.Kind r = MapKind (c g) "proto_library" /\
    e = emptyRecord g r /\
    (forall src, src ∈ rule.AttrStrings r "srcs" -> src ∉ knownSet g).
Proof.
  unfold generateEmpty. destruct (file g) as [f|] eqn:Hf; [| by intros ?%elem_of_nil].
  intros (r & Hin & He)%list_elem_of_omap.
  exists f, r. split; [done |]. split; [done |].
  unfold emptyRuleFor in He.
  destruct (String.eqb_spec (rule.Kind r) (MapKind (c g) "proto_library")) as [Hk | Hk];
    [| done]. cbn [negb] in He.
  destruct (_ && _); [done |].
  destruct (existsb (isKnown (knownFiles g)) (rule.AttrStrings r "srcs")) eqn:Hex; [done |].
  injection He as <-. split; [done |]. split; [done |].
  intros src Hsrc Hknown.
  assert (existsb (isKnown (knownFiles g)) (rule.AttrStrings r "srcs") = true)
    by (apply existsb_isKnown; eauto).
  congruence.
Qed.

Lemma generateEmpty_only_stale_witness :
  exists f r, file (generatorWith [keptProto; oldProto] ["new.proto"]) = Some f /\
    r ∈ rule.Rules f /\
    rule.Kind r = "proto_library" /\
    rule.NewRule "proto_library" "old_proto"
      = emptyRecord (generatorWith [keptProto; oldProto] ["new.proto"]) r /\
    (forall src, src ∈ rule.AttrStrings r "srcs" ->
       src ∉ knownSet (generatorWith [keptProto; oldProto] ["new.proto"])).
Proof.
  apply (generateEmpty_only_stale (generatorWith [keptProto; oldProto] ["new.proto"])).
  vm_compute. constructor.
Defined.

(** The kind table: every substitute attribute and every resolved
    attribute of a kind is also required to be non-empty. *)
Definition substituteResolveNonEmpty (info : rule.KindInfo) : bool :=
  forallb (inAttrs (rule.NonEmptyAttrs info))
          ((map_to_list (rule.SubstituteAttrs info)).*1 ++
           (map_to_list (rule.ResolveAttrs info)).*1).

Lemma goKinds_all_substituteResolveNonEmpty :
  forallb substituteResolveNonEmpty (map_to_list goKinds).*2 = true.
Proof. vm_compute. reflexivity. Qed.

Lemma substituteResolveNonEmpty_all (kinds : gmap string rule.KindInfo)
    (kindName : string) (info : rule.KindInfo) (k : string) :
  forallb substituteResolveNonEmpty (map_to_list kinds).*2 = true ->
  kinds !! kindName = Some info ->
  inAttrs (rule.SubstituteAttrs info) k = true \/ inAttrs (rule.ResolveAttrs info) k = true ->
  inAttrs (rule.NonEmptyAttrs info) k = true.
Proof.
  intros Hall Hinfo Hk.
  rewrite forallb_forall in Hall.
  assert (Hin : In info (map_to_list kinds).*2).
  { apply list_elem_of_In, list_elem_of_fmap. exists (kindName, info).
    split; [reflexivity |]. apply elem_of_map_to_list. exact Hinfo. }
  specialize (Hall info Hin). unfold substituteResolveNonEmpty in Hall.
  rewrite forallb_forall in Hall. apply Hall.
  apply list_elem_of_In, elem_of_app.
  assert (Hkey : forall (m : gmap string bool), inAttrs m k = true -> k ∈ (map_to_list m).*1).
  { intros m Hm. unfold inAttrs in Hm. destruct (m !! k) as [b|] eqn:Hb; [| done].
    apply list_elem_of_fmap. exists (k, b). split; [reflexivity |].
    apply elem_of_map_to_list. exact Hb. }
  destruct Hk as [Hk | Hk]; [left | right]; by apply Hkey.
Qed.

(** X8. In every kind of the table, a substitute attribute and a resolved
    attribute are also among the attributes required to be non-empty. *)
Theorem goKinds_substitute_resolve_nonempty (kindName : string) (info : rule.KindInfo)
    (k : string) :
  goKinds !! kindName = Some info ->
  inAttrs (rule.SubstituteAttrs info) k = true \/ inAttrs (rule.ResolveAttrs info) k = true ->
  inAttrs (rule.NonEmptyAttrs info) k = true.
Proof.
  exact (substituteResolveNonEmpty_all goKinds kindName info k
           goKinds_all_substituteResolveNonEmpty).
Qed.

Lemma goKinds_substitute_resolve_nonempty_witness :
  inAttrs (rule.NonEmptyAttrs (default rule.zeroKindInfo (goKinds !! "go_proto_library")))
          "proto" = true.
Proof.
  apply (goKinds_substitute_resolve_nonempty "go_proto_library").
  - vm_compute. reflexivity.
  - left. vm_compute. reflexivity.
Defined.

Section GeneratedOrder.
Context `{RangeOrder}.
Variable protoFileInfo : string -> string -> FileInfo.
Variable IsEmpty : rule.Rule -> rule.KindInfo -> bool.
Variable protoKinds : gmap string rule.KindInfo.

(** X7. The generated rules that [GenerateRules] returns are in ascending
    order of their names, in every mode. *)
Theorem GenerateRules_gen_sorted (args : GenerateArgs) :
  Sorted byName (GenerateRules protoFileInfo IsEmpty protoKinds args).1.2.
Proof.
  unfold GenerateRules.
  destruct (negb (ShouldGenerateRules (Mode_ (GetProtoConfig (Config_ args)))));
    [constructor |].
  destruct (buildPackages _ _ _ _) as [pkgs log].
  destruct (foldl _ _ pkgs) as [empty gen]. simpl.
  apply sortStableByName_sorted.
Qed.

End GeneratedOrder.

(** ** The loop of [LastIndexFunc] ends within the length of the string *)

Lemma findStart_le (s : string) (lim n : nat) (start : Z) :
  utf8.findStart s lim n start <= start.
Proof.
  revert start. induction n as [|n IH]; intros start; simpl; [lia |].
  destruct (start <? Z.of_nat lim); [lia |].
  destruct (String.get (Z.to_nat start) s) as [b|]; [| lia].
  destruct (utf8.RuneStart (utf8.byte b)); [lia |].
  specialize (IH (start - 1)). lia.
Qed.

(** The last rune of a non-empty string has at least one byte and no more
    bytes than the string. *)
Lemma DecodeLastRuneInString_size (s : string) :
  s <> "" ->
  (1 <= (utf8.DecodeLastRuneInString s).2 <= String.length s)%nat.
Proof.
  intros Hs.
  assert (Hlen : (1 <= String.length s)%nat) by (destruct s; [done | simpl; lia]).
  unfold utf8.DecodeLastRuneInString.
  destruct (String.get (String.length s - 1) s) as [b|] eqn:Hget.
  2:{ rewrite get_bytes in Hget. apply lookup_ge_None in Hget.
      rewrite length_bytes in Hget. lia. }
  destruct (utf8.byte b <? utf8.RuneSelf); [simpl; lia |].
  set (st := utf8.findStart _ _ _ _).
  assert (Hst : st <= Z.of_nat (String.length s - 1) - 1) by apply findStart_le.
  set (start := if st <? 0 then 0%nat else Z.to_nat st).
  assert (Hstart : (start < String.length s)%nat).
  { subst start. destruct (Z.ltb_spec st 0); lia. }
  destruct (utf8.DecodeRuneInString (sliceFrom start s)) as [r size].
  destruct (Nat.eqb_spec (start + size) (String.length s)); simpl; lia.
Qed.

Lemma sliceTo_nonempty (i : nat) (s : string) :
  (0 < i <= String.length s)%nat -> sliceTo i s <> "".
Proof.
  intros Hi Heq. pose proof (length_sliceTo i s (proj2 Hi)) as Hlen.
  rewrite Heq in Hlen. simpl in Hlen. lia.
Qed.

(** Any fuel of at least [i] gives the result of the loop from index [i]:
    the rounds that [LastIndexFunc] allows are enough. *)
Lemma lastIndexFunc_fuel (f : Z -> bool) (s : string) (fuel1 fuel2 i : nat) :
  (i <= String.length s)%nat -> (i <= fuel1)%nat -> (i <= fuel2)%nat ->
  lastIndexFunc fuel1 s f i = lastIndexFunc fuel2 s f i.
Proof.
  revert fuel2 i. induction fuel1 as [|fuel1 IH]; intros fuel2 i Hi H1 H2.
  - replace i with 0%nat by lia. by destruct fuel2.
  - destruct fuel2 as [|fuel2]; [by replace i with 0%nat by lia |].
    cbn [lastIndexFunc]. destruct (Nat.eqb_spec i 0); [done |].
    pose proof (DecodeLastRuneInString_size (sliceTo i s)
                  (sliceTo_nonempty i s ltac:(lia))) as Hsize.
    destruct (utf8.DecodeLastRuneInString (sliceTo i s)) as [r size]. simpl in Hsize.
    destruct (f r); [done |]. apply IH; lia.
Qed.

(** The trimmed name of candidates of bytes below 0x80: the candidate
    my/pkg.ext gives ext, an identifier gives itself. *)
Lemma trimToIdent_ascii_witness :
  trimToIdent "my/pkg.ext" = "ext" /\ trimToIdent "foo_bar" = "foo_bar".
Proof.
  split.
  - assert (Hascii : isASCII "my/pkg.ext") by by_compute.
    apply (proj1 (trimToIdent_ascii "my/pkg.ext" Hascii) "my/pkg" "."%char "ext").
    + reflexivity.
    + reflexivity.
    + by_compute.
  - assert (Hascii : isASCII "foo_bar") by by_compute.
    apply (proj2 (trimToIdent_ascii "foo_bar" Hascii)). by_compute.
Defined.
